(** * Traffic-lyt web client: hotspots cache, retry loop, insights helpers

    A shallow embedding of the parts of the web client that decide how
    requests for the hotspots grid are keyed, cached, deduplicated and
    retried ([app/lib/api.ts], [app/map/page.tsx]) and of the zone
    selection of [ZoneComparePanel.tsx].

    Conventions of the embedding:
    - a JavaScript [number] that the code uses as an integer (day counts,
      limits, hours, millisecond clocks, zone ids) is a [Z];
    - an optional field ([x?: T]) is an [option];
    - the [Map] of the cache is an association list in insertion order,
      which is the order [Map.prototype.entries] iterates in;
    - a promise is named by a natural number; settling a promise is an
      event of the environment. *)

From Stdlib Require Import ZArith List String Ascii Bool Lia.
From Stdlib Require Import DecimalString DecimalZ DecimalPos.
From Stdlib Require Import OrdersEx RelationClasses.
From Stdlib Require Import QArith Lqa Permutation Sorted.
Import ListNotations.

Local Open Scope Z_scope.

(** ** JavaScript primitives used by the code *)

Module JS.

(** [String(n)] for an integer [n]: decimal digits, a leading minus sign
    for negative numbers, ["0"] for zero. *)
Definition String_ (n : Z) : string :=
  NilZero.string_of_int (Z.to_int n).

(** [x ?? d] *)
Definition nullish {A : Type} (x : option A) (d : A) : A :=
  match x with
  | Some v => v
  | None => d
  end.

(** [k.join(sep)] *)
Definition join (sep : string) (k : list string) : string :=
  String.concat sep k.

(** [if (x != null) k.push(f(x))], as the list of pushed elements. *)
Definition push_if_present {A : Type} (f : A -> string) (x : option A)
  : list string :=
  match x with
  | Some v => [f v]
  | None => []
  end.

End JS.

(** ** [app/lib/api.ts]: request parameters and the cache key *)

Record FetchHotspotsParams : Type := mkParams {
  bbox : string;
  cell_m : option Z;
  recent_days : option Z;
  baseline_days : option Z;
  limit : option Z;
  start : option string;
  end_ : option string;
  hour_start : option Z;
  hour_end : option Z;
  violation_type : option string
}.

Definition hotspotsCacheKey (params : FetchHotspotsParams) : string :=
  let k :=
    [ bbox params;
      JS.String_ (JS.nullish (cell_m params) 250);
      JS.String_ (JS.nullish (recent_days params) 7);
      JS.String_ (JS.nullish (baseline_days params) 30);
      JS.String_ (JS.nullish (limit params) 3000) ]
    ++ JS.push_if_present (fun s => s) (start params)
    ++ JS.push_if_present (fun s => s) (end_ params)
    ++ JS.push_if_present JS.String_ (hour_start params)
    ++ JS.push_if_present JS.String_ (hour_end params)
    ++ JS.push_if_present (fun s => s) (violation_type params) in
  JS.join "|" k.

(** [bboxString] of [page.tsx] interpolates the four coordinates, west,
    south, east, north, with commas and without rounding.  The conversion
    of a floating-point coordinate to text is outside the model: a
    coordinate is given by its decimal rendering. *)
Definition bboxString (west south east north : string) : string :=
  (west ++ "," ++ south ++ "," ++ east ++ "," ++ north)%string.

(** Two requests are semantically identical when they agree on every field
    once the defaults of the optional numeric fields are filled in. *)
Definition semantically_identical (p q : FetchHotspotsParams) : Prop :=
  bbox p = bbox q /\
  JS.nullish (cell_m p) 250 = JS.nullish (cell_m q) 250 /\
  JS.nullish (recent_days p) 7 = JS.nullish (recent_days q) 7 /\
  JS.nullish (baseline_days p) 30 = JS.nullish (baseline_days q) 30 /\
  JS.nullish (limit p) 3000 = JS.nullish (limit q) 3000 /\
  start p = start q /\
  end_ p = end_ q /\
  hour_start p = hour_start q /\
  hour_end p = hour_end q /\
  violation_type p = violation_type q.

(** The two requests have the same optional filter fields present. *)
Definition present {A : Type} (x : option A) : bool :=
  match x with Some _ => true | None => false end.

Definition same_presence (p q : FetchHotspotsParams) : Prop :=
  present (start p) = present (start q) /\
  present (end_ p) = present (end_ q) /\
  present (hour_start p) = present (hour_start q) /\
  present (hour_end p) = present (hour_end q) /\
  present (violation_type p) = present (violation_type q).

(** No occurrence of the separator ["|"] in a string. *)
Fixpoint sep_free (s : string) : bool :=
  match s with
  | EmptyString => true
  | String c s' => negb (Ascii.eqb c "|") && sep_free s'
  end.

Definition opt_sep_free (x : option string) : bool :=
  match x with Some s => sep_free s | None => true end.

Definition strings_sep_free (p : FetchHotspotsParams) : bool :=
  sep_free (bbox p) && opt_sep_free (start p) && opt_sep_free (end_ p)
  && opt_sep_free (violation_type p).

Definition with_bbox (b : string) (p : FetchHotspotsParams)
  : FetchHotspotsParams :=
  mkParams b (cell_m p) (recent_days p) (baseline_days p) (limit p)
    (start p) (end_ p) (hour_start p) (hour_end p) (violation_type p).

(** The only call site ([page.tsx]) passes these fields. *)
Definition hotspotsParams (bbox : string) (gridSize : Z) : FetchHotspotsParams :=
  mkParams bbox (Some gridSize) (Some 7) (Some 30) (Some 3000)
    None None None None None.

(** ** [app/lib/api.ts]: the hotspots cache *)

Definition HOTSPOTS_CACHE_TTL_MS : Z := 3000.
Definition HOTSPOTS_CACHE_MAX_ENTRIES : nat := 50.

Section HotspotsCache.

(** The response payload is never inspected by the cache. *)
Variable HotspotsGridResponse : Type.

(** The capacity is a constant of the code, [HOTSPOTS_CACHE_MAX_ENTRIES];
    the functions are written over an arbitrary capacity so that small
    scenarios can be run, and are used at the constant. *)
Variable max_entries : nat.

Inductive HotspotsCacheEntry : Type :=
| Data (data : HotspotsGridResponse) (ts : Z)
| InFlight (ts : Z) (inFlightPromise : nat).

Definition entry_ts (v : HotspotsCacheEntry) : Z :=
  match v with
  | Data _ ts => ts
  | InFlight ts _ => ts
  end.

(** ['data' in v] *)
Definition has_data (v : HotspotsCacheEntry) : bool :=
  match v with
  | Data _ _ => true
  | InFlight _ _ => false
  end.

(** [Map<string, HotspotsCacheEntry>]: bindings in insertion order. *)
Definition JsMap : Type := list (string * HotspotsCacheEntry).

Fixpoint map_get (k : string) (m : JsMap) : option HotspotsCacheEntry :=
  match m with
  | [] => None
  | (k', v) :: m' => if String.eqb k' k then Some v else map_get k m'
  end.

(** [Map.prototype.set]: an existing key keeps its position. *)
Fixpoint map_set (k : string) (v : HotspotsCacheEntry) (m : JsMap) : JsMap :=
  match m with
  | [] => [(k, v)]
  | (k', v') :: m' =>
      if String.eqb k' k then (k, v) :: m' else (k', v') :: map_set k v m'
  end.

Definition map_delete (k : string) (m : JsMap) : JsMap :=
  filter (fun kv => negb (String.eqb (fst kv) k)) m.

Definition map_size (m : JsMap) : nat := List.length m.

(** [Array.prototype.sort] with the comparator [(a, b) => a[1].ts - b[1].ts]
    is a stable sort by [ts]; insertion from the right is one. *)
Fixpoint insert_by_ts (x : string * HotspotsCacheEntry) (l : JsMap) : JsMap :=
  match l with
  | [] => [x]
  | y :: l' =>
      if entry_ts (snd x) <=? entry_ts (snd y) then x :: l
      else y :: insert_by_ts x l'
  end.

Definition sort_by_ts (l : JsMap) : JsMap := fold_right insert_by_ts [] l.

Definition prune_candidates (excludeKey : string) (c : JsMap) : JsMap :=
  sort_by_ts
    (filter (fun kv => negb (String.eqb (fst kv) excludeKey) && has_data (snd kv)) c).

Definition pruneHotspotsCache (excludeKey : string) (c : JsMap) : JsMap :=
  if (map_size c <? max_entries)%nat then c
  else
    match prune_candidates excludeKey c with
    | victim :: _ => map_delete (fst victim) c
    | [] => c
    end.

(** The module state: the cache, the fetch promises that are still pending
    (each with the key its callbacks captured), and the number of network
    fetches started so far, which also names the next promise. *)
Record State : Type := mkState {
  hotspotsCache : JsMap;
  pending : list (nat * string);
  fetches : nat
}.

Definition init : State := mkState [] [] 0.

(** What the caller of [fetchHotspotsGridCached] gets: the cached data, or
    the outcome of a fetch promise. *)
Inductive Returned : Type :=
| Value (data : HotspotsGridResponse)
| Promise (p : nat).

Definition fetchHotspotsGridCached (params : FetchHotspotsParams) (now : Z)
    (st : State) : Returned * State :=
  let key := hotspotsCacheKey params in
  let miss :=
    let c := pruneHotspotsCache key (hotspotsCache st) in
    let promise := fetches st in
    (Promise promise,
     mkState (map_set key (InFlight now promise) c)
             ((promise, key) :: pending st)
             (S (fetches st))) in
  match map_get key (hotspotsCache st) with
  | Some (InFlight _ inFlightPromise) => (Promise inFlightPromise, st)
  | Some (Data data ts) =>
      if now - ts <? HOTSPOTS_CACHE_TTL_MS then (Value data, st) else miss
  | None => miss
  end.

Fixpoint promise_key (p : nat) (ps : list (nat * string)) : option string :=
  match ps with
  | [] => None
  | (q, k) :: ps' => if Nat.eqb q p then Some k else promise_key p ps'
  end.

Definition forget (p : nat) (ps : list (nat * string)) : list (nat * string) :=
  filter (fun qk => negb (Nat.eqb (fst qk) p)) ps.

(** The [then] callback of [doFetch]: the fetch of promise [p] succeeded
    with [data] at time [now]. *)
Definition fetch_fulfilled (p : nat) (data : HotspotsGridResponse) (now : Z)
    (st : State) : State :=
  match promise_key p (pending st) with
  | Some key =>
      mkState (map_set key (Data data now) (hotspotsCache st))
              (forget p (pending st)) (fetches st)
  | None => st
  end.

(** The [catch] callback: the fetch of promise [p] failed (non-OK status,
    network error, abort). *)
Definition fetch_rejected (p : nat) (st : State) : State :=
  match promise_key p (pending st) with
  | Some key =>
      mkState (map_delete key (hotspotsCache st))
              (forget p (pending st)) (fetches st)
  | None => st
  end.

Inductive Event : Type :=
| Call (params : FetchHotspotsParams) (now : Z)
| Fulfil (p : nat) (data : HotspotsGridResponse) (now : Z)
| Reject (p : nat).

Definition step (st : State) (e : Event) : State :=
  match e with
  | Call params now => snd (fetchHotspotsGridCached params now st)
  | Fulfil p data now => fetch_fulfilled p data now st
  | Reject p => fetch_rejected p st
  end.

Definition run (evs : list Event) : State := fold_left step evs init.

(** What a caller holding [r] receives when event [e] happens: the data
    or the failure of the promise it awaits. *)
Definition received (r : Returned) (e : Event)
  : option (option HotspotsGridResponse) :=
  match r, e with
  | Promise p, Fulfil q data _ => if Nat.eqb p q then Some (Some data) else None
  | Promise p, Reject q => if Nat.eqb p q then Some None else None
  | _, _ => None
  end.

Definition in_flight (c : JsMap) : nat :=
  List.length (filter (fun kv => negb (has_data (snd kv))) c).

(** The largest number of fetches in flight at once along a run. *)
Fixpoint peak_from (st : State) (evs : list Event) : nat :=
  match evs with
  | [] => in_flight (hotspotsCache st)
  | e :: evs' => Nat.max (in_flight (hotspotsCache st)) (peak_from (step st e) evs')
  end.

Definition peak_in_flight (evs : list Event) : nat := peak_from init evs.

End HotspotsCache.

Arguments Data {HotspotsGridResponse} data ts.
Arguments InFlight {HotspotsGridResponse} ts inFlightPromise.
Arguments Value {HotspotsGridResponse} data.
Arguments Promise {HotspotsGridResponse} p.
Arguments Call {HotspotsGridResponse} params now.
Arguments Fulfil {HotspotsGridResponse} p data now.
Arguments Reject {HotspotsGridResponse} p.
Arguments mkState {HotspotsGridResponse} hotspotsCache pending fetches.
Arguments hotspotsCache {HotspotsGridResponse} s.
Arguments pending {HotspotsGridResponse} s.
Arguments fetches {HotspotsGridResponse} s.
Arguments init {HotspotsGridResponse}.
Arguments entry_ts {HotspotsGridResponse} v.
Arguments has_data {HotspotsGridResponse} v.
Arguments map_get {HotspotsGridResponse} k m.
Arguments map_set {HotspotsGridResponse} k v m.
Arguments map_delete {HotspotsGridResponse} k m.
Arguments map_size {HotspotsGridResponse} m.
Arguments insert_by_ts {HotspotsGridResponse} x l.
Arguments sort_by_ts {HotspotsGridResponse} l.
Arguments prune_candidates {HotspotsGridResponse} excludeKey c.
Arguments pruneHotspotsCache {HotspotsGridResponse} max_entries excludeKey c.
Arguments fetchHotspotsGridCached {HotspotsGridResponse} max_entries params now st.
Arguments fetch_fulfilled {HotspotsGridResponse} p data now st.
Arguments fetch_rejected {HotspotsGridResponse} p st.
Arguments step {HotspotsGridResponse} max_entries st e.
Arguments run {HotspotsGridResponse} max_entries evs.
Arguments received {HotspotsGridResponse} r e.
Arguments in_flight {HotspotsGridResponse} c.
Arguments peak_from {HotspotsGridResponse} max_entries st evs.
Arguments peak_in_flight {HotspotsGridResponse} max_entries evs.

(** ** [app/map/page.tsx]: the retry loop of the hotspots fetch *)

Module Retry.

Definition maxAttempts : nat := 3.
Definition backoffMs : list Z := [600; 1200; 2400].

(** [Math.random()] is a double in [0, 1); as the engines produce it, a
    multiple of 2^-53: [m / 2^53] with [0 <= m < 2^53]. *)
Definition random_ok (m : Z) : Prop := 0 <= m < 2 ^ 53.

(** The integer nearest to [n / 2^k], ties to the even one, for [k > 0]. *)
Definition round_half_even (n k : Z) : Z :=
  let q := n / 2 ^ k in
  let r := n mod 2 ^ k in
  let half := 2 ^ (k - 1) in
  if r <? half then q
  else if half <? r then q + 1
  else if Z.even q then q else q + 1.

(** [Math.floor] of the double nearest to [n / 2^e], for [n >= 0]: a
    double keeps 53 significant bits, so a numerator of more bits is
    rounded to the nearest multiple of the power of two that remains. *)
Definition floor_of_double (n e : Z) : Z :=
  let l := Z.log2 n in
  if l <=? 52 then n / 2 ^ e
  else
    let k := l - 52 in
    (round_half_even n k * 2 ^ k) / 2 ^ e.

(** [jitter = Math.floor(Math.random() * 80) + 20]; the product is the
    double nearest to [m * 80 / 2^53]. *)
Definition jitter (m : Z) : Z := floor_of_double (m * 80) 53 + 20.

(** [s.includes(sub)] *)
Fixpoint includes (sub s : string) : bool :=
  String.prefix sub s ||
  match s with
  | EmptyString => false
  | String _ s' => includes sub s'
  end.

(** A caught value [e]: its [name] property if it has one, whether it is
    an [Error], and its [message]. *)
Record Thrown : Type := mkThrown {
  name : option string;
  instanceofError : bool;
  message : string
}.

Definition isAbortError (e : Thrown) : bool :=
  match name e with
  | Some n => String.eqb n "AbortError"
  | None => false
  end.

Definition error_msg (e : Thrown) : string :=
  if instanceofError e then message e else "Hotspots unavailable".

(** What the [catch] block of [fetchHotspotsWithRetry] does. *)
Inductive CatchAction : Type :=
| Dropped
| RetryAfter (delay : option Z)
| RateLimitFailed
| ErrorShown (msg : string).

(** [backoffMs[attempt] + jitter()]; out of range the element is
    [undefined] and the sum is [NaN], written [None]. *)
Definition retry_delay (attempt : nat) (m : Z) : option Z :=
  match nth_error backoffMs attempt with
  | Some b => Some (b + jitter m)
  | None => None
  end.

Definition on_catch (attempt : nat) (e : Thrown) (m : Z) : CatchAction :=
  if isAbortError e then Dropped
  else
    let msg := error_msg e in
    let is429 := includes "429" msg in
    if is429 && (attempt <? maxAttempts - 1)%nat then
      RetryAfter (retry_delay attempt m)
    else if is429 then RateLimitFailed
    else ErrorShown msg.

(** The environment of one run of the loop: the outcome of the fetch of
    each attempt ([None] is success), the random draw of each attempt, and
    whether the guards of the timer callback let the retry go ahead (the
    viewport is unchanged and no newer request has started). *)
Record Env : Type := mkEnv {
  outcome : nat -> option Thrown;
  random : nat -> Z;
  still_current : nat -> bool
}.

Inductive LoopEvent : Type :=
| Attempt (attempt : nat)
| Succeeded
| Caught (a : CatchAction)
| Superseded.

(** [fetchHotspotsWithRetry(attempt)] with the timer unfolded; [fuel]
    bounds the recursion, [None] is running out of it. *)
Fixpoint fetchHotspotsWithRetry (fuel : nat) (env : Env) (attempt : nat)
  : option (list LoopEvent) :=
  match fuel with
  | O => None
  | S fuel' =>
      match outcome env attempt with
      | None => Some [Attempt attempt; Succeeded]
      | Some e =>
          let a := on_catch attempt e (random env attempt) in
          match a with
          | RetryAfter _ =>
              if still_current env attempt then
                match fetchHotspotsWithRetry fuel' env (S attempt) with
                | Some rest => Some (Attempt attempt :: Caught a :: rest)
                | None => None
                end
              else Some [Attempt attempt; Caught a; Superseded]
          | _ => Some [Attempt attempt; Caught a]
          end
      end
  end.

Definition is_attempt (ev : LoopEvent) : bool :=
  match ev with Attempt _ => true | _ => false end.

Definition attempts (t : list LoopEvent) : nat :=
  List.length (filter is_attempt t).

(** The delays waited in a trace. *)
Fixpoint delays (t : list LoopEvent) : list (option Z) :=
  match t with
  | [] => []
  | Caught (RetryAfter d) :: t' => d :: delays t'
  | _ :: t' => delays t'
  end.

End Retry.

(** ** [app/map/page.tsx]: busiest hour and day *)

Module HourBucket.
Record t : Type := mk { hour : Z; count : Z }.
End HourBucket.

Module DayBucket.
Record t : Type := mk { day : string; count : Z }.
End DayBucket.

(** [arr.reduce(f)] without an initial value: the first element starts
    the accumulator; on an empty array it throws, written [None]. *)
Definition reduce {A : Type} (f : A -> A -> A) (arr : list A) : option A :=
  match arr with
  | [] => None
  | x :: arr' => Some (fold_left f arr' x)
  end.

(** [a < b] on strings. *)
Definition str_lt (a b : string) : bool :=
  match String_as_OT.compare a b with
  | Lt => true
  | _ => false
  end.

Definition better_hour (best b : HourBucket.t) : HourBucket.t :=
  if (HourBucket.count b >? HourBucket.count best)
     || ((HourBucket.count b =? HourBucket.count best)
         && (HourBucket.hour b <? HourBucket.hour best))
  then b else best.

Definition busiestHour (buckets : list HourBucket.t) : option HourBucket.t :=
  if Nat.eqb (List.length buckets) 0 then None
  else reduce better_hour buckets.

Definition better_day (best b : DayBucket.t) : DayBucket.t :=
  if (DayBucket.count b >? DayBucket.count best)
     || ((DayBucket.count b =? DayBucket.count best)
         && str_lt (DayBucket.day b) (DayBucket.day best))
  then b else best.

Definition busiestDay (buckets : list DayBucket.t) : option DayBucket.t :=
  if Nat.eqb (List.length buckets) 0 then None
  else reduce better_day buckets.

(** ** [app/components/ZoneComparePanel.tsx]: zone selection *)

Definition MAX_ZONES : nat := 5.

(** [selectedIds.includes(id)] *)
Definition includes_id (selectedIds : list Z) (id : Z) : bool :=
  existsb (Z.eqb id) selectedIds.

(** [addZone(id)]: [None] when it returns without calling
    [onSelectionChange], otherwise the list it passes to it. *)
Definition addZone (selectedIds : list Z) (id : Z) : option (list Z) :=
  if includes_id selectedIds id || (MAX_ZONES <=? List.length selectedIds)%nat
  then None
  else Some (selectedIds ++ [id]).

(** The selection after the call: [onSelectionChange] replaces it. *)
Definition selection_after (selectedIds : list Z) (id : Z) : list Z :=
  match addZone selectedIds id with
  | Some ids => ids
  | None => selectedIds
  end.

(** ** Auxiliary definitions used in the statements *)

(** The fields joined by [hotspotsCacheKey], in order. *)
Definition key_fields (params : FetchHotspotsParams) : list string :=
  [ bbox params;
    JS.String_ (JS.nullish (cell_m params) 250);
    JS.String_ (JS.nullish (recent_days params) 7);
    JS.String_ (JS.nullish (baseline_days params) 30);
    JS.String_ (JS.nullish (limit params) 3000) ]
  ++ JS.push_if_present (fun s => s) (start params)
  ++ JS.push_if_present (fun s => s) (end_ params)
  ++ JS.push_if_present JS.String_ (hour_start params)
  ++ JS.push_if_present JS.String_ (hour_end params)
  ++ JS.push_if_present (fun s => s) (violation_type params).

(** Requests with a single optional field. *)
Definition req_start_X : FetchHotspotsParams :=
  mkParams "-74.1,40.6,-73.9,40.8" None None None None
    (Some "X"%string) None None None None.

Definition req_end_X : FetchHotspotsParams :=
  mkParams "-74.1,40.6,-73.9,40.8" None None None None
    None (Some "X"%string) None None None.

Definition req_hour_start_5 : FetchHotspotsParams :=
  mkParams "-74.1,40.6,-73.9,40.8" None None None None
    None None (Some 5) None None.

Definition req_hour_end_5 : FetchHotspotsParams :=
  mkParams "-74.1,40.6,-73.9,40.8" None None None None
    None None None (Some 5) None.

(** The two viewports of the key-stability example, as [bboxString]
    renders them. *)
Definition bbox_a : string := bboxString "-74.10000001" "40.6" "-73.9" "40.8".
Definition bbox_b : string := bboxString "-74.1" "40.6" "-73.90000004" "40.8".

(** Scenarios.  Payloads are named by strings. *)
Definition req (name : string) : FetchHotspotsParams := hotspotsParams name 250.

(** Insert A, insert B, read A, insert C. *)
Definition lru_prefix : list (@Event string) :=
  [ Call (req "A") 0; Fulfil 0 "data A"%string 10;
    Call (req "B") 20; Fulfil 1 "data B"%string 30 ].

Definition lru_scenario : list (@Event string) :=
  lru_prefix ++ [ Call (req "A") 40; Call (req "C") 50 ].

(** The same at the capacity of the code: fifty keys are fetched and
    stored in turn, the first is read again, a fifty-first is requested. *)
Definition nth_req (i : nat) : FetchHotspotsParams :=
  hotspotsParams "A" (Z.of_nat i).

Definition fill (n : nat) : list (@Event string) :=
  flat_map (fun i => [ Call (nth_req i) (2 * Z.of_nat i);
                       Fulfil i "data"%string (2 * Z.of_nat i + 1) ])
           (seq 0 n).

Definition full_scenario : list (@Event string) :=
  fill 50 ++ [ Call (nth_req 0) 200; Call (nth_req 50) 201 ].

(** Fifty-one requests for different keys, none answered yet. *)
Definition burst (n : nat) : list (@Event string) :=
  map (fun i => Call (nth_req i) 0) (seq 0 n).

(** A fetch that fails, and one that succeeds and is looked up late. *)
Definition failing_scenario : list (@Event string) :=
  [ Call (req "A") 0; Reject 0 ].

Definition stored_scenario : list (@Event string) :=
  [ Call (req "A") 0; Fulfil 0 "data A"%string 100 ].

(** The head of a list is no later than the rest. *)
Definition head_oldest {R : Type} (l : JsMap R) : Prop :=
  match l with
  | [] => True
  | x :: l' => forall y, In y l' -> entry_ts (snd x) <= entry_ts (snd y)
  end.

(** Well-formed states: the cache has one binding per key, and every
    pending promise has its in-flight entry under its key. *)
Definition wf {R : Type} (st : State R) : Prop :=
  NoDup (map fst (hotspotsCache st)) /\
  forall p k, promise_key p (pending st) = Some k ->
              exists ts, map_get k (hotspotsCache st) = Some (InFlight ts p).

(** A single request, not answered yet, and a second one for the same
    key while the first is in flight. *)
Definition one_call : list (@Event string) := [ Call (req "A") 0 ].

Definition two_calls : list (@Event string) :=
  [ Call (req "A") 0; Call (req "A") 5000 ].

(** Failures of the hotspots fetch: a rate-limit response, as
    [fetchHotspotsGrid] throws it, a server error, and an abort. *)
Definition err429 : Retry.Thrown :=
  Retry.mkThrown (Some "Error"%string) true "Hotspots: HTTP 429".

Definition err500 : Retry.Thrown :=
  Retry.mkThrown (Some "Error"%string) true "Hotspots: HTTP 500".

Definition abortError : Retry.Thrown :=
  Retry.mkThrown (Some "AbortError"%string) true "The operation was aborted.".

(** Every attempt is rate limited, every draw of [Math.random] is 0 and no
    retry is superseded. *)
Definition always429 : Retry.Env :=
  Retry.mkEnv (fun _ => Some err429) (fun _ => 0) (fun _ => true).

(** Every attempt fails with a server error; every attempt is aborted. *)
Definition always500 : Retry.Env :=
  Retry.mkEnv (fun _ => Some err500) (fun _ => 0) (fun _ => true).

Definition always_aborted : Retry.Env :=
  Retry.mkEnv (fun _ => Some abortError) (fun _ => 0) (fun _ => true).

(** What a run of the loop holds after attempt [n]: a success or a
    failure that is not retried ends the run; after a failure that is
    retried comes the wait and then attempt [n + 1], unless the retry is
    superseded. *)
Definition after_attempt (env : Retry.Env) (n : nat) (post : list Retry.LoopEvent)
  : Prop :=
  match Retry.outcome env n with
  | None => post = [Retry.Succeeded]
  | Some e =>
      match Retry.on_catch n e (Retry.random env n) with
      | Retry.RetryAfter d =>
          if Retry.still_current env n
          then exists rest,
                 post = Retry.Caught (Retry.RetryAfter d)
                        :: Retry.Attempt (S n) :: rest
          else post = [Retry.Caught (Retry.RetryAfter d); Retry.Superseded]
      | a => post = [Retry.Caught a]
      end
  end.

(** A delay that the loop can wait: 600 or 1200 ms plus the jitter. *)
Definition delay_ok (d : option Z) : Prop :=
  exists x, d = Some x /\ (620 <= x <= 699 \/ 1220 <= x <= 1299).

(** [best] is at least as busy as [b]: a larger count, or the same count
    and no later hour (day). *)
Definition beats_hour (best b : HourBucket.t) : Prop :=
  HourBucket.count b < HourBucket.count best \/
  (HourBucket.count b = HourBucket.count best /\
   HourBucket.hour best <= HourBucket.hour b).

Definition beats_day (best b : DayBucket.t) : Prop :=
  DayBucket.count b < DayBucket.count best \/
  (DayBucket.count b = DayBucket.count best /\
   str_lt (DayBucket.day b) (DayBucket.day best) = false).

(** Sample buckets: hours 9 and 17 tie on the count, and so do two days. *)
Definition sample_hours : list HourBucket.t :=
  [ HourBucket.mk 17 40; HourBucket.mk 8 12; HourBucket.mk 9 40 ].

Definition sample_days : list DayBucket.t :=
  [ DayBucket.mk "2024-03-02" 7; DayBucket.mk "2024-03-01" 7;
    DayBucket.mk "2024-02-28" 3 ].

(** Sample selections: two zones, and a full one. *)
Definition two_zones : list Z := [3; 1].
Definition five_zones : list Z := [1; 2; 3; 4; 5].

(** ** Further definitions: the cache *)

(** A stronger well-formedness: besides [wf], every in-flight entry
    belongs to a promise that is still pending under that key, and every
    pending promise was started by an earlier fetch. *)
Definition wf_strong {R : Type} (st : State R) : Prop :=
  wf st /\
  (forall k ts p, map_get k (hotspotsCache st) = Some (InFlight ts p) ->
                  promise_key p (pending st) = Some k) /\
  (forall p k, In (p, k) (pending st) -> (p < fetches st)%nat).

(** No call of the run finds the cache at capacity, so that pruning never
    removes anything. *)
Fixpoint stays_below_capacity {R : Type} (max_entries : nat) (st : State R)
    (evs : list (@Event R)) : Prop :=
  match evs with
  | [] => True
  | e :: evs' =>
      match e with
      | Call _ _ => (map_size (hotspotsCache st) < max_entries)%nat
      | _ => True
      end /\
      stays_below_capacity max_entries (step max_entries st e) evs'
  end.

(** After the data for A is stored at 100: a request for B, its answer and
    a second look at B. *)
Definition later_events : list (@Event string) :=
  [ Call (req "B") 500; Fulfil 1 "data B"%string 900; Call (req "B") 1000 ].

(** ** Further definitions: the fetch and the retry loop *)

(** [res.ok]: a status in the range 200 to 299. *)
Definition res_ok (status : Z) : bool := (200 <=? status) && (status <=? 299).

(** [fetchHotspotsGrid]: the error it throws for a response that is not
    ok, [new Error(`Hotspots: HTTP ${res.status}`)]; [None] when the
    response is ok and its body is read. *)
Definition http_error (status : Z) : Retry.Thrown :=
  Retry.mkThrown (Some "Error"%string) true
    ("Hotspots: HTTP " ++ JS.String_ status)%string.

Definition fetchHotspotsGrid_throws (status : Z) : option Retry.Thrown :=
  if res_ok status then None else Some (http_error status).

(** The time a run of the loop spends waiting, in ms; a delay of [NaN]
    makes the timer fire at once. *)
Fixpoint total_wait (ds : list (option Z)) : Z :=
  match ds with
  | [] => 0
  | Some d :: ds' => d + total_wait ds'
  | None :: ds' => total_wait ds'
  end.

(** Every attempt gets a response with status 503. *)
Definition always503 : Retry.Env :=
  Retry.mkEnv (fun _ => fetchHotspotsGrid_throws 503) (fun _ => 0) (fun _ => true).

(** The longest wait that can still follow a failure at [attempt]. *)
Definition wait_bound (attempt : nat) : Z :=
  match attempt with
  | O => 1998
  | S O => 1299
  | _ => 0
  end.

(** ** Further definitions: zone selection *)

(** [ZoneSummary] of [api.ts]; coordinates are rationals. *)
Record ZoneBBox : Type := mkZoneBBox { minx : Q; miny : Q; maxx : Q; maxy : Q }.

Record ZoneSummary : Type := mkZoneSummary {
  id : Z;
  name : string;
  zone_type : string;
  zone_bbox : option ZoneBBox;
  created_at : option string
}.

(** [removeZone(id)]: the list it passes to [onSelectionChange],
    [selectedIds.filter((x) => x !== id)]. *)
Definition removeZone (selectedIds : list Z) (id : Z) : list Z :=
  filter (fun x => negb (x =? id)) selectedIds.

(** [zonesList.filter((z) => !selectedIds.includes(z.id))] *)
Definition availableToAdd (zonesList : list ZoneSummary) (selectedIds : list Z)
  : list ZoneSummary :=
  filter (fun z => negb (includes_id selectedIds (id z))) zonesList.

Definition sample_zones : list ZoneSummary :=
  [ mkZoneSummary 1 "Midtown" "borough" None None;
    mkZoneSummary 7 "Harbor" "custom" None None ].

(** ** Further definitions: the zones in the address *)

(** Strings are sequences of code units below 256.  The white space
    among them: tab, line feed, vertical tab, form feed, carriage return,
    space and no-break space. *)
Definition is_space (c : ascii) : bool :=
  existsb (N.eqb (N_of_ascii c)) [9; 10; 11; 12; 13; 32; 160]%N.

Fixpoint trim_start (s : string) : string :=
  match s with
  | EmptyString => EmptyString
  | String c s' => if is_space c then trim_start s' else s
  end.

Fixpoint trim_end (s : string) : string :=
  match s with
  | EmptyString => EmptyString
  | String c s' =>
      match trim_end s' with
      | EmptyString => if is_space c then EmptyString else String c EmptyString
      | r => String c r
      end
  end.

(** [s.trim()] *)
Definition trim (s : string) : string := trim_end (trim_start s).

(** [s.split(sep)] for a separator of one character. *)
Fixpoint split (sep : ascii) (s : string) : list string :=
  match s with
  | EmptyString => [EmptyString]
  | String c s' =>
      if Ascii.eqb c sep then EmptyString :: split sep s'
      else
        match split sep s' with
        | x :: l => String c x :: l
        | [] => [String c EmptyString]
        end
  end.

Definition is_digit (c : ascii) : bool :=
  (48 <=? N_of_ascii c)%N && (N_of_ascii c <=? 57)%N.

Fixpoint take_digits (s : string) : string :=
  match s with
  | EmptyString => EmptyString
  | String c s' => if is_digit c then String c (take_digits s') else EmptyString
  end.

(** [parseInt(s, 10)]: leading white space is skipped, a sign is read,
    then the longest run of decimal digits; [None] is [NaN].  The value is
    exact, as it is in the code up to 2^53. *)
Definition parseInt10 (s : string) : option Z :=
  let S := trim_start s in
  let signed :=
    match S with
    | String c r =>
        if Ascii.eqb c "-" then (-1, r)
        else if Ascii.eqb c "+" then (1, r)
        else (1, S)
    | EmptyString => (1, S)
    end in
  match take_digits (snd signed) with
  | EmptyString => None
  | ds =>
      match NilEmpty.uint_of_string ds with
      | Some u => Some (fst signed * Z.of_uint u)
      | None => None
      end
  end.

(** The numbers of an array of parse results that has no [NaN] left. *)
Definition numbers (l : list (option Z)) : list Z :=
  flat_map (fun n => match n with Some v => [v] | None => [] end) l.

(** [parseZonesFromSearchParams]; the argument is
    [searchParams?.get('zones')], [None] when the parameter is absent. *)
Definition parseZonesFromSearchParams (zones : option string) : list Z :=
  match zones with
  | None => []
  | Some z =>
      if String.eqb z "" || String.eqb (trim z) "" then []
      else
        numbers
          (filter (fun n => match n with Some v => 0 <? v | None => false end)
             (map (fun s => parseInt10 (trim s)) (split "," z)))
  end.

(** [handleZoneSelectionChange]: the value it gives the [zones] parameter
    of the address, [ids.join(',')], or [None] when it deletes it. *)
Definition zones_param (ids : list Z) : option string :=
  if (0 <? List.length ids)%nat then Some (JS.join "," (map JS.String_ ids))
  else None.

Definition MAX_SAFE_INTEGER : Z := 9007199254740991.

(** A string without the character [sep]; a string of decimal digits. *)
Definition no_char (sep : ascii) (s : string) : bool :=
  forallb (fun c => negb (Ascii.eqb c sep)) (list_ascii_of_string s).

Definition all_digits (s : string) : bool :=
  forallb is_digit (list_ascii_of_string s).

(** ** Further definitions: the top hotspots *)

Inductive RiskLevel : Type := low | medium | high.

(** [HotspotCell] of [api.ts].  A finite floating-point number is a
    rational, and the sign of a floating-point difference is the sign of
    the exact one, so scores and ratios are taken in [Q]. *)
Record HotspotCell : Type := mkCell {
  centroid : Q * Q;
  recent_count : Z;
  baseline_count : Z;
  ratio : Q;
  score : Q;
  risk_level : RiskLevel
}.

(** [Array.prototype.sort(cmp)], a stable sort: insertion from the right;
    the comparator returns the sign of its number. *)
Fixpoint insert_by {A : Type} (cmp : A -> A -> comparison) (x : A) (l : list A)
  : list A :=
  match l with
  | [] => [x]
  | y :: l' =>
      match cmp x y with
      | Gt => y :: insert_by cmp x l'
      | _ => x :: l
      end
  end.

Definition sort_by {A : Type} (cmp : A -> A -> comparison) (l : list A) : list A :=
  fold_right (insert_by cmp) [] l.

(** [(a, b) => b.score !== a.score ? b.score - a.score : b.ratio - a.ratio] *)
Definition by_score_then_ratio (a b : HotspotCell) : comparison :=
  if negb (Qeq_bool (score b) (score a)) then (score b ?= score a)%Q
  else (ratio b ?= ratio a)%Q.

Definition top5Hotspots (cells : list HotspotCell) : list HotspotCell :=
  firstn 5 (sort_by by_score_then_ratio cells).

(** [a] ranks no lower than [b]: a higher score, or the same score and a
    ratio that is not smaller. *)
Definition ranks_before (a b : HotspotCell) : Prop :=
  (score b < score a)%Q \/ (score b == score a /\ ratio b <= ratio a)%Q.

Definition sample_cells : list HotspotCell :=
  [ mkCell (0, 0)%Q 4 2 (2 # 1) (50 # 1) medium;
    mkCell (1, 0)%Q 9 3 (3 # 1) (90 # 1) high;
    mkCell (2, 0)%Q 3 2 (3 # 2) (50 # 1) medium ].

(** ** Further definitions: the query string *)

Module URL.

(** The serializer of [application/x-www-form-urlencoded], on strings of
    code units below 256 (see [URL16] for strings in full): a code unit
    is written in UTF-8; a space becomes [+]; letters, digits, [*], [-],
    [.] and [_] stay; every other byte becomes [%] and two upper-case
    hexadecimal digits. *)
Definition hex_digit (n : N) : ascii :=
  ascii_of_N (if (n <? 10)%N then 48 + n else 55 + n)%N.

Definition unreserved (b : N) : bool :=
  ((b =? 42) || (b =? 45) || (b =? 46) || (b =? 95)
   || ((48 <=? b) && (b <=? 57))
   || ((65 <=? b) && (b <=? 90))
   || ((97 <=? b) && (b <=? 122)))%N.

Definition encode_byte (b : N) : string :=
  if (b =? 32)%N then "+"%string
  else if unreserved b then String (ascii_of_N b) EmptyString
  else String "%" (String (hex_digit (b / 16)) (String (hex_digit (b mod 16)) EmptyString)).

Definition utf8 (c : ascii) : list N :=
  let n := N_of_ascii c in
  if (n <? 128)%N then [n] else [192 + n / 64; 128 + n mod 64]%N.

Definition encode_unit (c : ascii) : string :=
  String.concat EmptyString (map encode_byte (utf8 c)).

Fixpoint urlencode (s : string) : string :=
  match s with
  | EmptyString => EmptyString
  | String c s' => (encode_unit c ++ urlencode s')%string
  end.

(** [URLSearchParams]: name-value pairs in order. *)
Definition URLSearchParams : Type := list (string * string).

(** [p.set(name, value)]: the first pair with that name gets the value
    and the other pairs with that name are removed; without such a pair
    one is appended. *)
Fixpoint set (name value : string) (p : URLSearchParams) : URLSearchParams :=
  match p with
  | [] => [(name, value)]
  | (n, v) :: p' =>
      if String.eqb n name
      then (name, value) :: filter (fun nv => negb (String.eqb (fst nv) name)) p'
      else (n, v) :: set name value p'
  end.

Definition pair_string (nv : string * string) : string :=
  (urlencode (fst nv) ++ "=" ++ urlencode (snd nv))%string.

(** [p.toString()] *)
Definition toString (p : URLSearchParams) : string :=
  JS.join "&" (map pair_string p).

(** The value first given under a name. *)
Fixpoint get (name : string) (p : URLSearchParams) : option string :=
  match p with
  | [] => None
  | (n, v) :: p' => if String.eqb n name then Some v else get name p'
  end.

(** A reader for what [urlencode] writes, used to show that nothing is
    lost. *)
Definition unhex (c : ascii) : option N :=
  let n := N_of_ascii c in
  if ((48 <=? n) && (n <=? 57))%N then Some (n - 48)%N
  else if ((65 <=? n) && (n <=? 70))%N then Some (n - 55)%N
  else None.

Fixpoint urldecode (s : string) : option string :=
  match s with
  | EmptyString => Some EmptyString
  | String c r =>
      if Ascii.eqb c "+" then option_map (String " ") (urldecode r)
      else if Ascii.eqb c "%" then
        match r with
        | String h1 (String h2 r2) =>
            match unhex h1, unhex h2 with
            | Some a, Some b =>
                let n := (16 * a + b)%N in
                if (n <? 128)%N
                then option_map (String (ascii_of_N n)) (urldecode r2)
                else
                  match r2 with
                  | String pc (String h3 (String h4 r3)) =>
                      if Ascii.eqb pc "%" then
                        match unhex h3, unhex h4 with
                        | Some a', Some b' =>
                            option_map
                              (String (ascii_of_N
                                         ((n - 192) * 64 + (16 * a' + b' - 128))%N))
                              (urldecode r3)
                        | _, _ => None
                        end
                      else None
                  | _ => None
                  end
            | _, _ => None
            end
        | _ => None
        end
      else option_map (String c) (urldecode r)
  end.

End URL.

(** The serializer on JavaScript strings in full, as lists of 16-bit code
    units, to place the strings of this development, whose code units are
    below 256, within it. *)
Module URL16.

Definition JsString : Type := list N.

Definition of_string (s : string) : JsString :=
  map N_of_ascii (list_ascii_of_string s).

Definition is_high (u : N) : bool := ((55296 <=? u) && (u <=? 56319))%N.
Definition is_low (u : N) : bool := ((56320 <=? u) && (u <=? 57343))%N.

(** The code points of the [USVString] of a string: a high surrogate and
    the low one after it make one code point; any other surrogate is
    replaced by U+FFFD. *)
Fixpoint code_points (u : JsString) : list N :=
  match u with
  | [] => []
  | h :: u' =>
      if is_high h then
        match u' with
        | l :: u'' =>
            if is_low l
            then (65536 + (h - 55296) * 1024 + (l - 56320))%N :: code_points u''
            else 65533%N :: code_points u'
        | [] => [65533%N]
        end
      else if is_low h then 65533%N :: code_points u'
      else h :: code_points u'
  end.

(** UTF-8 *)
Definition utf8 (cp : N) : list N :=
  if (cp <? 128)%N then [cp]
  else if (cp <? 2048)%N then [192 + cp / 64; 128 + cp mod 64]%N
  else if (cp <? 65536)%N
       then [224 + cp / 4096; 128 + (cp / 64) mod 64; 128 + cp mod 64]%N
       else [240 + cp / 262144; 128 + (cp / 4096) mod 64;
             128 + (cp / 64) mod 64; 128 + cp mod 64]%N.

Fixpoint encode_bytes (bs : list N) : string :=
  match bs with
  | [] => EmptyString
  | b :: bs' => (URL.encode_byte b ++ encode_bytes bs')%string
  end.

Definition serialize (u : JsString) : string :=
  encode_bytes (flat_map utf8 (code_points u)).

End URL16.

(** [searchParams] of [api.ts] *)
Definition searchParams (params : FetchHotspotsParams) : string :=
  let p : URL.URLSearchParams := [] in
  let p := URL.set "bbox" (bbox params) p in
  let p := URL.set "cell_m" (JS.String_ (JS.nullish (cell_m params) 250)) p in
  let p := URL.set "recent_days" (JS.String_ (JS.nullish (recent_days params) 7)) p in
  let p := URL.set "baseline_days" (JS.String_ (JS.nullish (baseline_days params) 30)) p in
  let p := URL.set "limit" (JS.String_ (JS.nullish (limit params) 3000)) p in
  let p := match start params with Some s => URL.set "start" s p | None => p end in
  let p := match end_ params with Some s => URL.set "end" s p | None => p end in
  let p := match hour_start params with
           | Some h => URL.set "hour_start" (JS.String_ h) p
           | None => p
           end in
  let p := match hour_end params with
           | Some h => URL.set "hour_end" (JS.String_ h) p
           | None => p
           end in
  let p := match violation_type params with
           | Some s => URL.set "violation_type" s p
           | None => p
           end in
  URL.toString p.

(** The pairs that [searchParams] serializes. *)
Definition search_fields (params : FetchHotspotsParams) : URL.URLSearchParams :=
  [ ("bbox", bbox params);
    ("cell_m", JS.String_ (JS.nullish (cell_m params) 250));
    ("recent_days", JS.String_ (JS.nullish (recent_days params) 7));
    ("baseline_days", JS.String_ (JS.nullish (baseline_days params) 30));
    ("limit", JS.String_ (JS.nullish (limit params) 3000)) ]%string
  ++ match start params with Some s => [("start"%string, s)] | None => [] end
  ++ match end_ params with Some s => [("end"%string, s)] | None => [] end
  ++ match hour_start params with
     | Some h => [("hour_start"%string, JS.String_ h)]
     | None => []
     end
  ++ match hour_end params with
     | Some h => [("hour_end"%string, JS.String_ h)]
     | None => []
     end
  ++ match violation_type params with
     | Some s => [("violation_type"%string, s)]
     | None => []
     end.

(** * Properties *)

(** *** Facts about strings *)

Section StringFacts.

Local Open Scope string_scope.

Lemma append_length (s t : string) :
  String.length (s ++ t) = (String.length s + String.length t)%nat.
Proof. induction s as [|c s IH]; simpl; [reflexivity | now rewrite IH]. Qed.

Lemma append_cancel_r (t s1 s2 : string) :
  s1 ++ t = s2 ++ t -> s1 = s2.
Proof.
  revert s2; induction s1 as [|c s1 IH]; intros [|d s2] H; simpl in H.
  - reflexivity.
  - apply (f_equal String.length) in H; simpl in H.
    rewrite append_length in H; lia.
  - apply (f_equal String.length) in H; simpl in H.
    rewrite append_length in H; lia.
  - injection H as -> H. f_equal. now apply IH.
Qed.

(** A separator-free prefix in front of a separator is determined by the
    whole string. *)
Lemma sep_split (a b s t : string) :
  sep_free a = true -> sep_free b = true ->
  a ++ "|" ++ s = b ++ "|" ++ t -> a = b /\ s = t.
Proof.
  revert b; induction a as [|c a IH]; intros [|d b] Ha Hb H; simpl in *.
  - injection H as H. now split.
  - injection H as <- _. discriminate Hb.
  - injection H as -> _. discriminate Ha.
  - injection H as -> H.
    apply andb_prop in Ha as [_ Ha]. apply andb_prop in Hb as [_ Hb].
    destruct (IH b Ha Hb H) as [-> ->]. now split.
Qed.

Lemma join_cons2 (x y : string) (l : list string) :
  JS.join "|" (x :: y :: l) = x ++ "|" ++ JS.join "|" (y :: l).
Proof. reflexivity. Qed.

Lemma join_inj (l1 l2 : list string) :
  List.length l1 = List.length l2 ->
  forallb sep_free l1 = true -> forallb sep_free l2 = true ->
  JS.join "|" l1 = JS.join "|" l2 -> l1 = l2.
Proof.
  revert l2; induction l1 as [|x [|y l1] IH]; intros [|x' [|y' l2]] Hlen H1 H2 H;
    try discriminate Hlen.
  - reflexivity.
  - simpl in H. now subst.
  - rewrite !join_cons2 in H.
    simpl in H1, H2.
    apply andb_prop in H1 as [Hx H1]. apply andb_prop in H2 as [Hx' H2].
    destruct (sep_split _ _ _ _ Hx Hx' H) as [-> Ht].
    f_equal. apply IH; simpl; auto.
Qed.

Lemma uint_sep_free (d : Decimal.uint) :
  sep_free (NilEmpty.string_of_uint d) = true.
Proof. induction d; simpl; auto. Qed.

Lemma String_sep_free (n : Z) : sep_free (JS.String_ n) = true.
Proof.
  unfold JS.String_.
  destruct (Z.to_int n) as [d|d]; simpl;
    destruct d; simpl; auto using uint_sep_free.
Qed.

Lemma String_inj (n m : Z) : JS.String_ n = JS.String_ m -> n = m.
Proof.
  unfold JS.String_. intros H.
  apply DecimalZ.to_int_inj.
  assert (Hnn : forall z, Z.to_int z <> Decimal.Pos Decimal.Nil /\
                          Z.to_int z <> Decimal.Neg Decimal.Nil).
  { intros [|p|p]; simpl; split; try discriminate;
      intros [= E]; exact (Unsigned.to_uint_nonnil p E). }
  apply (f_equal NilZero.int_of_string) in H.
  rewrite !NilZero.isi in H by apply Hnn.
  now injection H.
Qed.

End StringFacts.

(** ** The cache key *)

Lemma hotspotsCacheKey_fields (p : FetchHotspotsParams) :
  hotspotsCacheKey p = JS.join "|" (key_fields p).
Proof. reflexivity. Qed.

Lemma key_fields_sep_free (p : FetchHotspotsParams) :
  strings_sep_free p = true -> forallb sep_free (key_fields p) = true.
Proof.
  destruct p as [b c r bl l s e hs he v]; unfold strings_sep_free, key_fields.
  cbn [bbox cell_m recent_days baseline_days limit start end_ hour_start
       hour_end violation_type].
  intros H.
  apply andb_prop in H as [H Hv]. apply andb_prop in H as [H He].
  apply andb_prop in H as [Hb Hs].
  rewrite !forallb_app. cbn [forallb app].
  rewrite Hb, !String_sep_free. cbn [andb].
  destruct s, e, hs, he, v; cbn in *;
    rewrite ?String_sep_free, ?Hs, ?He, ?Hv; reflexivity.
Qed.

Lemma key_fields_length (p q : FetchHotspotsParams) :
  same_presence p q -> List.length (key_fields p) = List.length (key_fields q).
Proof.
  destruct p as [b c r bl l s e hs he v], q as [b' c' r' bl' l' s' e' hs' he' v'].
  unfold same_presence, key_fields; cbn.
  intros (Hs & He & Hhs & Hhe & Hv).
  destruct s, s'; try discriminate Hs; destruct e, e'; try discriminate He;
  destruct hs, hs'; try discriminate Hhs; destruct he, he'; try discriminate Hhe;
  destruct v, v'; try discriminate Hv; reflexivity.
Qed.

Lemma key_fields_identical (p q : FetchHotspotsParams) :
  same_presence p q -> key_fields p = key_fields q ->
  semantically_identical p q.
Proof.
  destruct p as [b c r bl l s e hs he v], q as [b' c' r' bl' l' s' e' hs' he' v'].
  unfold same_presence, key_fields, semantically_identical; cbn.
  intros (Hs & He & Hhs & Hhe & Hv) H.
  injection H as Hb Hc Hr Hbl Hl H.
  apply String_inj in Hc, Hr, Hbl, Hl.
  repeat (split; [assumption|]).
  destruct s, s'; try discriminate Hs; destruct e, e'; try discriminate He;
  destruct hs, hs'; try discriminate Hhs; destruct he, he'; try discriminate Hhe;
  destruct v, v'; try discriminate Hv; cbn in H;
  try (injection H; clear H; intros);
  repeat match goal with
         | E : JS.String_ _ = JS.String_ _ |- _ => apply String_inj in E
         end; subst; repeat split; reflexivity.
Qed.

(** C1, as stated, fails: a request with only [start = "X"] and one with
    only [end = "X"] get the same key, and so do [hour_start = 5] and
    [hour_end = 5], although the requests differ; the key carries no
    marker for an absent field. *)
Lemma hotspotsCacheKey_conflates_fields :
  (hotspotsCacheKey req_start_X = hotspotsCacheKey req_end_X /\
   ~ semantically_identical req_start_X req_end_X) /\
  (hotspotsCacheKey req_hour_start_5 = hotspotsCacheKey req_hour_end_5 /\
   ~ semantically_identical req_hour_start_5 req_hour_end_5) /\
  ~ (forall p q, hotspotsCacheKey p = hotspotsCacheKey q <->
                 semantically_identical p q).
Proof.
  assert (H1 : ~ semantically_identical req_start_X req_end_X).
  { intros (_ & _ & _ & _ & _ & H & _). discriminate H. }
  assert (H2 : ~ semantically_identical req_hour_start_5 req_hour_end_5).
  { intros (_ & _ & _ & _ & _ & _ & _ & H & _). discriminate H. }
  repeat split; try reflexivity; try assumption.
  intros H. apply H1. apply H. reflexivity.
Qed.

(** C1, amended: semantically identical requests get the same key; and
    two requests with the same key are semantically identical provided
    they have the same optional fields present and no string field
    contains the separator ["|"]. *)
Theorem hotspotsCacheKey_semantics (p q : FetchHotspotsParams) :
  (semantically_identical p q -> hotspotsCacheKey p = hotspotsCacheKey q) /\
  (same_presence p q ->
   strings_sep_free p = true -> strings_sep_free q = true ->
   hotspotsCacheKey p = hotspotsCacheKey q -> semantically_identical p q).
Proof.
  split.
  - destruct p as [b c r bl l s e hs he v], q as [b' c' r' bl' l' s' e' hs' he' v'].
    unfold semantically_identical, hotspotsCacheKey; cbn.
    intros (-> & -> & -> & -> & -> & -> & -> & -> & -> & ->). reflexivity.
  - intros Hpres Hp Hq H. rewrite !hotspotsCacheKey_fields in H.
    apply key_fields_identical; [assumption|].
    apply join_inj; auto using key_fields_length, key_fields_sep_free.
Qed.

Lemma hotspotsCacheKey_semantics_witness :
  hotspotsCacheKey (hotspotsParams "-74.1,40.6,-73.9,40.8" 250)
  = hotspotsCacheKey (mkParams "-74.1,40.6,-73.9,40.8" None None None None
                        None None None None None) /\
  semantically_identical req_start_X req_start_X.
Proof.
  split.
  - apply (proj1 (hotspotsCacheKey_semantics _ _)).
    repeat split; reflexivity.
  - apply (proj2 (hotspotsCacheKey_semantics req_start_X req_start_X)).
    + repeat split; reflexivity.
    + reflexivity.
    + reflexivity.
    + reflexivity.
Defined.

Lemma hotspotsCacheKey_bbox_prefix (b : string) (p : FetchHotspotsParams) :
  hotspotsCacheKey (with_bbox b p)
  = (b ++ "|" ++ JS.join "|" (tl (key_fields p)))%string.
Proof. reflexivity. Qed.

(** C2, as stated, fails: the two viewports of the example, which differ
    only past the fifth decimal digit, get different keys. *)
Lemma hotspotsCacheKey_keeps_all_digits :
  hotspotsCacheKey (hotspotsParams bbox_a 250)
  <> hotspotsCacheKey (hotspotsParams bbox_b 250).
Proof. vm_compute. discriminate. Qed.

(** C2, amended: the key holds the bounding-box string as given, without
    rounding; two requests that differ at most in their bounding box have
    the same key exactly when the two strings are equal. *)
Theorem hotspotsCacheKey_bbox_verbatim (p : FetchHotspotsParams) (b1 b2 : string) :
  hotspotsCacheKey (with_bbox b1 p) = hotspotsCacheKey (with_bbox b2 p)
  <-> b1 = b2.
Proof.
  split.
  - rewrite !hotspotsCacheKey_bbox_prefix. apply append_cancel_r.
  - intros ->. reflexivity.
Qed.

Lemma hotspotsCacheKey_bbox_verbatim_witness :
  hotspotsCacheKey (with_bbox bbox_a req_start_X)
  = hotspotsCacheKey (with_bbox bbox_a req_start_X).
Proof.
  apply (proj2 (hotspotsCacheKey_bbox_verbatim req_start_X bbox_a bbox_a)).
  reflexivity.
Defined.

(** ** The cache as a map *)

Section MapFacts.

Context {R : Type}.
Implicit Types (m c : JsMap R) (k : string) (v : HotspotsCacheEntry R).

Lemma map_get_set_same k v m : map_get k (map_set k v m) = Some v.
Proof.
  induction m as [|[k' v'] m IH]; simpl.
  - now rewrite String.eqb_refl.
  - destruct (String.eqb k' k) eqn:E; simpl.
    + now rewrite String.eqb_refl.
    + now rewrite E.
Qed.

Lemma map_get_set_other k k' v m :
  k <> k' -> map_get k' (map_set k v m) = map_get k' m.
Proof.
  intros Hk. induction m as [|[k0 v0] m IH]; simpl.
  - destruct (String.eqb_spec k k'); [contradiction | reflexivity].
  - destruct (String.eqb_spec k0 k) as [->|Hk0]; simpl.
    + destruct (String.eqb_spec k k'); [contradiction | reflexivity].
    + destruct (String.eqb k0 k'); [reflexivity | exact IH].
Qed.

Lemma map_get_delete k k' m :
  map_get k' (map_delete k m)
  = if String.eqb k k' then None else map_get k' m.
Proof.
  induction m as [|[k0 v0] m IH]; simpl.
  - now destruct (String.eqb k k').
  - destruct (String.eqb_spec k0 k) as [->|Hk0]; simpl.
    + rewrite IH. destruct (String.eqb k k'); reflexivity.
    + destruct (String.eqb_spec k0 k') as [->|Hk0']; simpl.
      * destruct (String.eqb_spec k k'); [congruence | reflexivity].
      * exact IH.
Qed.

Lemma map_get_In k v m : map_get k m = Some v -> In (k, v) m.
Proof.
  induction m as [|[k0 v0] m IH]; simpl; [discriminate|].
  destruct (String.eqb_spec k0 k) as [->|Hk0].
  - intros [= ->]. now left.
  - intros H. right. auto.
Qed.

Lemma In_map_get k v m : In (k, v) m -> map_get k m <> None.
Proof.
  induction m as [|[k0 v0] m IH]; simpl; [tauto|].
  intros [[= -> ->]|H].
  - now rewrite String.eqb_refl.
  - destruct (String.eqb k0 k); [discriminate | auto].
Qed.

Lemma NoDup_In_map_get k v m :
  NoDup (map fst m) -> In (k, v) m -> map_get k m = Some v.
Proof.
  induction m as [|[k0 v0] m IH]; simpl; [tauto|].
  intros Hnd [[= -> ->]|H].
  - now rewrite String.eqb_refl.
  - inversion Hnd as [|? ? Hnotin Hnd']; subst.
    destruct (String.eqb_spec k0 k) as [->|Hk0]; [|auto].
    exfalso. apply Hnotin. now apply (in_map fst) in H.
Qed.

Lemma map_size_set_present k v m :
  map_get k m <> None -> map_size (map_set k v m) = map_size m.
Proof.
  unfold map_size. induction m as [|[k0 v0] m IH]; simpl; [congruence|].
  destruct (String.eqb k0 k); simpl; [reflexivity|]. intros H. now rewrite IH.
Qed.

Lemma map_size_set_absent k v m :
  map_get k m = None -> map_size (map_set k v m) = S (map_size m).
Proof.
  unfold map_size. induction m as [|[k0 v0] m IH]; simpl; [reflexivity|].
  destruct (String.eqb k0 k); simpl; [discriminate|]. intros H. now rewrite IH.
Qed.

Lemma map_size_set_le k v m : (map_size (map_set k v m) <= S (map_size m))%nat.
Proof.
  destruct (map_get k m) eqn:E.
  - rewrite map_size_set_present by congruence. lia.
  - rewrite map_size_set_absent by assumption. lia.
Qed.

Lemma map_size_delete_le k m : (map_size (map_delete k m) <= map_size m)%nat.
Proof. apply filter_length_le. Qed.

Lemma map_size_delete_lt k v m :
  In (k, v) m -> (map_size (map_delete k m) < map_size m)%nat.
Proof.
  unfold map_size, map_delete.
  induction m as [|[k0 v0] m IH]; simpl; [tauto|].
  intros [[= -> ->]|H].
  - rewrite String.eqb_refl. simpl.
    pose proof (filter_length_le (fun kv => negb (String.eqb (fst kv) k)) m). lia.
  - specialize (IH H). destruct (String.eqb k0 k); simpl; lia.
Qed.

Lemma map_fst_set k v m :
  map fst (map_set k v m)
  = match map_get k m with
    | Some _ => map fst m
    | None => map fst m ++ [k]
    end.
Proof.
  induction m as [|[k0 v0] m IH]; simpl; [reflexivity|].
  destruct (String.eqb_spec k0 k) as [->|Hk0]; simpl; [reflexivity|].
  rewrite IH. now destruct (map_get k m).
Qed.

Lemma map_get_None_notin k m : map_get k m = None -> ~ In k (map fst m).
Proof.
  intros H Hin. apply in_map_iff in Hin as [[k0 v0] [E Hin]]. simpl in E. subst.
  now apply In_map_get in Hin.
Qed.

Lemma NoDup_map_set k v m : NoDup (map fst m) -> NoDup (map fst (map_set k v m)).
Proof.
  intros Hnd. rewrite map_fst_set. destruct (map_get k m) eqn:E; [assumption|].
  apply NoDup_app; [assumption | repeat constructor; simpl; tauto |].
  intros x Hx [<-|[]]. now apply map_get_None_notin in E.
Qed.

Lemma NoDup_map_delete k m : NoDup (map fst m) -> NoDup (map fst (map_delete k m)).
Proof.
  unfold map_delete. induction m as [|[k0 v0] m IH]; simpl; [auto|].
  intros Hnd. inversion Hnd as [|? ? Hnotin Hnd']; subst.
  destruct (String.eqb k0 k); simpl; [auto|].
  constructor; [|auto].
  intros Hin. apply Hnotin. apply in_map_iff in Hin as [x [E Hx]].
  apply filter_In in Hx as [Hx _]. rewrite <- E. now apply in_map.
Qed.

End MapFacts.

(** ** Pruning *)

Section PruneFacts.

Context {R : Type}.
Variable max_entries : nat.
Implicit Types (m c : JsMap R) (k : string) (v : HotspotsCacheEntry R).

Lemma In_insert_by_ts (x y : string * HotspotsCacheEntry R) l :
  In y (insert_by_ts x l) <-> y = x \/ In y l.
Proof.
  induction l as [|z l IH]; simpl.
  - intuition.
  - destruct (entry_ts (snd x) <=? entry_ts (snd z)); simpl.
    + intuition.
    + rewrite IH. intuition.
Qed.

Lemma In_sort_by_ts (y : string * HotspotsCacheEntry R) l :
  In y (sort_by_ts l) <-> In y l.
Proof.
  induction l as [|x l IH]; simpl; [tauto|].
  rewrite In_insert_by_ts, IH. intuition.
Qed.

Lemma insert_by_ts_head_oldest (x : string * HotspotsCacheEntry R) (l : JsMap R) :
  head_oldest l -> head_oldest (insert_by_ts x l).
Proof.
  destruct l as [|z l]; simpl; [tauto|].
  intros Hz. destruct (Z.leb_spec (entry_ts (snd x)) (entry_ts (snd z))); simpl.
  - intros y [<-|Hy]; [assumption|]. specialize (Hz y Hy). lia.
  - intros y Hy. apply In_insert_by_ts in Hy as [->|Hy]; [lia | auto].
Qed.

Lemma sort_by_ts_head_oldest (l : JsMap R) : head_oldest (sort_by_ts l).
Proof.
  induction l as [|x l IH]; simpl; [exact I|].
  now apply insert_by_ts_head_oldest.
Qed.

Lemma In_candidate ex c (k : string) v :
  In (k, v) (prune_candidates ex c)
  <-> In (k, v) c /\ k <> ex /\ has_data v = true.
Proof.
  unfold prune_candidates. rewrite In_sort_by_ts, filter_In. simpl.
  rewrite andb_true_iff, negb_true_iff.
  destruct (String.eqb_spec k ex); intuition congruence.
Qed.

(** The victim, when there is one: a completed entry under another key
    whose [ts] is the smallest among those. *)
Lemma prune_candidates_head ex c kv vv rest :
  prune_candidates ex c = (kv, vv) :: rest ->
  In (kv, vv) c /\ kv <> ex /\ has_data vv = true /\
  forall k v, In (k, v) c -> k <> ex -> has_data v = true ->
              entry_ts vv <= entry_ts v.
Proof.
  intros E.
  assert (Hin : In (kv, vv) (prune_candidates ex c)) by (rewrite E; now left).
  apply In_candidate in Hin as (Hin & Hne & Hd).
  repeat split; try assumption.
  intros k v Hkv Hk Hv.
  assert (Hc : In (k, v) (prune_candidates ex c)) by now apply In_candidate.
  pose proof (sort_by_ts_head_oldest
    (filter (fun kv => negb (String.eqb (fst kv) ex) && has_data (snd kv)) c)) as Hs.
  fold (prune_candidates ex c) in Hs. rewrite E in Hs, Hc. simpl in Hs.
  destruct Hc as [[= <- <-]|Hc]; [lia | exact (Hs _ Hc)].
Qed.

Lemma prune_cases ex c :
  pruneHotspotsCache max_entries ex c = c \/
  exists kv dv tv,
    In (kv, Data dv tv) c /\ kv <> ex /\
    pruneHotspotsCache max_entries ex c = map_delete kv c.
Proof.
  unfold pruneHotspotsCache.
  destruct (map_size c <? max_entries)%nat; [now left|].
  destruct (prune_candidates ex c) as [|[kv vv] rest] eqn:E; [now left|].
  right. apply prune_candidates_head in E as (Hin & Hne & Hd & _).
  destruct vv as [dv tv|? ?]; [|discriminate Hd].
  now exists kv, dv, tv.
Qed.

Lemma map_get_prune_exclude ex c :
  map_get ex (pruneHotspotsCache max_entries ex c) = map_get ex c.
Proof.
  destruct (prune_cases ex c) as [->|(kv & dv & tv & _ & Hne & ->)]; [reflexivity|].
  rewrite map_get_delete. destruct (String.eqb_spec kv ex); [contradiction|reflexivity].
Qed.

Lemma map_get_prune_sub ex c k v :
  map_get k (pruneHotspotsCache max_entries ex c) = Some v -> map_get k c = Some v.
Proof.
  destruct (prune_cases ex c) as [->|(kv & dv & tv & _ & _ & ->)]; [auto|].
  rewrite map_get_delete. destruct (String.eqb kv k); [discriminate | auto].
Qed.

Lemma map_get_prune_in_flight ex c k ts p :
  NoDup (map fst c) ->
  map_get k c = Some (InFlight ts p) ->
  map_get k (pruneHotspotsCache max_entries ex c) = Some (InFlight ts p).
Proof.
  intros Hnd Hk.
  destruct (prune_cases ex c) as [->|(kv & dv & tv & Hin & _ & ->)]; [auto|].
  rewrite map_get_delete. destruct (String.eqb_spec kv k) as [->|]; [|auto].
  apply NoDup_In_map_get in Hin; [congruence | assumption].
Qed.

Lemma NoDup_prune ex c :
  NoDup (map fst c) -> NoDup (map fst (pruneHotspotsCache max_entries ex c)).
Proof.
  intros Hnd.
  destruct (prune_cases ex c) as [->|(kv & dv & tv & _ & _ & ->)]; [auto|].
  now apply NoDup_map_delete.
Qed.

End PruneFacts.


(** ** Lookups, misses and failures *)

Section FetchFacts.

Context {R : Type}.
Variable max_entries : nat.
Implicit Types (st : State R) (params : FetchHotspotsParams).

Lemma fetch_miss_eq params now st :
  (map_get (hotspotsCacheKey params) (hotspotsCache st) = None \/
   exists data ts,
     map_get (hotspotsCacheKey params) (hotspotsCache st) = Some (Data data ts) /\
     now - ts >= HOTSPOTS_CACHE_TTL_MS) ->
  fetchHotspotsGridCached max_entries params now st
  = (Promise (fetches st),
     mkState
       (map_set (hotspotsCacheKey params) (InFlight now (fetches st))
          (pruneHotspotsCache max_entries (hotspotsCacheKey params)
             (hotspotsCache st)))
       ((fetches st, hotspotsCacheKey params) :: pending st)
       (S (fetches st))).
Proof.
  unfold fetchHotspotsGridCached.
  intros [->|(data & ts & -> & Hts)]; [reflexivity|].
  destruct (Z.ltb_spec (now - ts) HOTSPOTS_CACHE_TTL_MS); [lia | reflexivity].
Qed.

Lemma fetch_hit_eq params now st data ts :
  map_get (hotspotsCacheKey params) (hotspotsCache st) = Some (Data data ts) ->
  now - ts < HOTSPOTS_CACHE_TTL_MS ->
  fetchHotspotsGridCached max_entries params now st = (Value data, st).
Proof.
  intros Hget Hts. unfold fetchHotspotsGridCached. rewrite Hget.
  destruct (Z.ltb_spec (now - ts) HOTSPOTS_CACHE_TTL_MS); [reflexivity | lia].
Qed.

Lemma fetch_in_flight_eq params now st ts p :
  map_get (hotspotsCacheKey params) (hotspotsCache st) = Some (InFlight ts p) ->
  fetchHotspotsGridCached max_entries params now st = (Promise p, st).
Proof. intros Hget. unfold fetchHotspotsGridCached. now rewrite Hget. Qed.

(** When pruning runs on a cache at capacity that holds a completed
    entry under another key, it removes such an entry of smallest [ts]. *)
Lemma prune_oldest (c : JsMap R) excludeKey k d t :
  (max_entries <= map_size c)%nat ->
  In (k, Data d t) c -> k <> excludeKey ->
  exists kv dv tv,
    In (kv, Data dv tv) c /\ kv <> excludeKey /\
    (forall k' d' t', In (k', Data d' t') c -> k' <> excludeKey -> tv <= t') /\
    pruneHotspotsCache max_entries excludeKey c = map_delete kv c.
Proof.
  intros Hfull Hin Hk.
  unfold pruneHotspotsCache.
  destruct (Nat.ltb_spec (map_size c) max_entries); [lia|].
  destruct (prune_candidates excludeKey c) as [|[kv vv] rest] eqn:E.
  - exfalso.
    assert (Hc : In (k, Data d t) (prune_candidates excludeKey c))
      by (apply In_candidate; auto).
    now rewrite E in Hc.
  - apply prune_candidates_head in E as (Hv & Hne & Hd & Hmin).
    destruct vv as [dv tv|? ?]; [|discriminate Hd].
    exists kv, dv, tv. repeat split; auto.
    intros k' d' t' Hin' Hk'. exact (Hmin k' (Data d' t') Hin' Hk' eq_refl).
Qed.

(** C4: a lookup at [t1] of an entry whose data was stored at [t0], with
    [t1 - t0 >= HOTSPOTS_CACHE_TTL_MS], does not return the stored data:
    it starts a new fetch, returns its promise, and overwrites the entry
    with the in-flight entry of that fetch. *)
Theorem expired_entry_is_a_miss st params data t0 t1 :
  map_get (hotspotsCacheKey params) (hotspotsCache st) = Some (Data data t0) ->
  t1 - t0 >= HOTSPOTS_CACHE_TTL_MS ->
  let r := fst (fetchHotspotsGridCached max_entries params t1 st) in
  let st' := snd (fetchHotspotsGridCached max_entries params t1 st) in
  r = Promise (fetches st) /\
  r <> Value data /\
  fetches st' = S (fetches st) /\
  promise_key (fetches st) (pending st') = Some (hotspotsCacheKey params) /\
  map_get (hotspotsCacheKey params) (hotspotsCache st')
  = Some (InFlight t1 (fetches st)).
Proof.
  intros Hget Hts r st'. subst r st'.
  rewrite fetch_miss_eq by (right; eauto). simpl.
  rewrite Nat.eqb_refl, map_get_set_same.
  repeat split; try reflexivity. discriminate.
Qed.

(** C6: when the fetch of a pending promise fails, the entry of its key
    is deleted, the failure adds no data to the cache, and the next call
    for that key starts a new fetch and returns its promise. *)
Theorem failed_fetch_is_not_cached st p key :
  promise_key p (pending st) = Some key ->
  let st' := fetch_rejected p st in
  map_get key (hotspotsCache st') = None /\
  (forall k data ts,
     map_get k (hotspotsCache st') = Some (Data data ts) ->
     map_get k (hotspotsCache st) = Some (Data data ts)) /\
  (forall params now,
     hotspotsCacheKey params = key ->
     fst (fetchHotspotsGridCached max_entries params now st')
     = Promise (fetches st') /\
     fetches (snd (fetchHotspotsGridCached max_entries params now st'))
     = S (fetches st')).
Proof.
  intros Hp st'. subst st'. unfold fetch_rejected. rewrite Hp. simpl.
  assert (Hnone : map_get key (map_delete key (hotspotsCache st)) = None).
  { rewrite map_get_delete. now rewrite String.eqb_refl. }
  split; [exact Hnone|]. split.
  - intros k data ts. rewrite map_get_delete.
    destruct (String.eqb key k); [discriminate | auto].
  - intros params now <-.
    rewrite fetch_miss_eq by (left; exact Hnone). simpl. now split.
Qed.

(** C7: a call for a key whose entry is in flight returns the promise of
    that entry and changes nothing, so no fetch is started; a second call
    that follows a call which returned a promise returns the same promise,
    whatever the time, and both callers receive the same outcome. *)
Theorem in_flight_call_is_deduplicated st params :
  (forall now ts p,
     map_get (hotspotsCacheKey params) (hotspotsCache st) = Some (InFlight ts p) ->
     fetchHotspotsGridCached max_entries params now st = (Promise p, st)) /\
  (forall now1 now2 p,
     fst (fetchHotspotsGridCached max_entries params now1 st) = Promise p ->
     let st1 := snd (fetchHotspotsGridCached max_entries params now1 st) in
     fetchHotspotsGridCached max_entries params now2 st1 = (Promise p, st1) /\
     forall e,
       received (fst (fetchHotspotsGridCached max_entries params now2 st1)) e
       = received (fst (fetchHotspotsGridCached max_entries params now1 st)) e).
Proof.
  pose proof (fun st0 now ts p => fetch_in_flight_eq params now st0 ts p) as Hflight.
  split; [apply Hflight|].
  intros now1 now2 p Hr st1.
  assert (Hsnd : fetchHotspotsGridCached max_entries params now2 st1
                 = (Promise p, st1)).
  { subst st1. revert Hr.
    destruct (map_get (hotspotsCacheKey params) (hotspotsCache st))
      as [[data ts|ts q]|] eqn:Hget.
    - destruct (Z.ltb_spec (now1 - ts) HOTSPOTS_CACHE_TTL_MS).
      + rewrite (fetch_hit_eq _ _ _ _ _ Hget) by assumption. discriminate.
      + rewrite fetch_miss_eq by (right; exists data, ts; split; [assumption | lia]).
        simpl. intros [= <-]. eapply Hflight. simpl. apply map_get_set_same.
    - rewrite (Hflight _ now1 _ _ Hget). simpl. intros [= <-].
      eapply Hflight. exact Hget.
    - rewrite fetch_miss_eq by (left; assumption).
      simpl. intros [= <-]. eapply Hflight. simpl. apply map_get_set_same. }
  split; [exact Hsnd|].
  intros e. now rewrite Hsnd, Hr.
Qed.

End FetchFacts.

(** ** The size of the cache *)

Section SizeBound.

Context {R : Type}.
Variable max_entries : nat.
Implicit Types (st : State R) (c : JsMap R).

Lemma promise_key_forget p q ps :
  promise_key q (forget p ps) = if Nat.eqb p q then None else promise_key q ps.
Proof.
  induction ps as [|[p0 k0] ps IH]; simpl.
  - now destruct (Nat.eqb p q).
  - destruct (Nat.eqb_spec p0 p) as [->|Hp]; simpl.
    + rewrite IH. destruct (Nat.eqb p q); reflexivity.
    + destruct (Nat.eqb_spec p0 q) as [->|Hq].
      * destruct (Nat.eqb_spec p q); [congruence | reflexivity].
      * exact IH.
Qed.

Lemma wf_init : wf (@init R).
Proof. split; [constructor | discriminate]. Qed.

Lemma wf_miss st key now :
  wf st ->
  (forall ts p, map_get key (hotspotsCache st) <> Some (InFlight ts p)) ->
  wf (mkState
        (map_set key (InFlight now (fetches st))
           (pruneHotspotsCache max_entries key (hotspotsCache st)))
        ((fetches st, key) :: pending st) (S (fetches st))).
Proof.
  intros [Hnd Hp] Hkey. split; simpl.
  - now apply NoDup_map_set, NoDup_prune.
  - intros p k. destruct (Nat.eqb_spec (fetches st) p) as [<-|Hne].
    + intros [= <-]. exists now. apply map_get_set_same.
    + intros Hk. destruct (Hp p k Hk) as [ts Hts]. exists ts.
      rewrite map_get_set_other by (intros ->; exact (Hkey _ _ Hts)).
      now apply map_get_prune_in_flight.
Qed.

Lemma wf_step st e : wf st -> wf (step max_entries st e).
Proof.
  intros Hwf. destruct e as [params now|p data now|p]; simpl.
  - unfold fetchHotspotsGridCached.
    destruct (map_get (hotspotsCacheKey params) (hotspotsCache st))
      as [[data ts|ts q]|] eqn:Hget; simpl; [|assumption|].
    + destruct (now - ts <? HOTSPOTS_CACHE_TTL_MS); simpl; [assumption|].
      apply wf_miss; [assumption | congruence].
    + apply wf_miss; [assumption | congruence].
  - unfold fetch_fulfilled.
    destruct (promise_key p (pending st)) as [key|] eqn:Hkey; [|assumption].
    destruct Hwf as [Hnd Hp]. split; simpl.
    + now apply NoDup_map_set.
    + intros q k. rewrite promise_key_forget.
      destruct (Nat.eqb_spec p q) as [->|Hne]; [discriminate|].
      intros Hk. destruct (Hp q k Hk) as [ts Hts]. exists ts.
      rewrite map_get_set_other; [assumption|].
      intros ->. destruct (Hp p k Hkey) as [ts' Hts']. congruence.
  - unfold fetch_rejected.
    destruct (promise_key p (pending st)) as [key|] eqn:Hkey; [|assumption].
    destruct Hwf as [Hnd Hp]. split; simpl.
    + now apply NoDup_map_delete.
    + intros q k. rewrite promise_key_forget.
      destruct (Nat.eqb_spec p q) as [->|Hne]; [discriminate|].
      intros Hk. destruct (Hp q k Hk) as [ts Hts]. exists ts.
      rewrite map_get_delete.
      destruct (String.eqb_spec key k) as [->|]; [|assumption].
      destruct (Hp p k Hkey) as [ts' Hts']. congruence.
Qed.

Lemma wf_run_from st evs : wf st -> wf (fold_left (step max_entries) evs st).
Proof.
  revert st; induction evs as [|e evs IH]; simpl; auto using wf_step.
Qed.

Lemma map_set_absent k (v : HotspotsCacheEntry R) c :
  map_get k c = None -> map_set k v c = c ++ [(k, v)].
Proof.
  induction c as [|[k0 v0] c IH]; simpl; [reflexivity|].
  destruct (String.eqb k0 k); [discriminate|]. intros H. now rewrite IH.
Qed.

Lemma in_flight_all c :
  (forall k v, In (k, v) c -> has_data v = false) ->
  in_flight c = map_size c.
Proof.
  unfold in_flight, map_size. induction c as [|[k0 v0] c IH]; simpl; [reflexivity|].
  intros H. rewrite (H k0 v0) by now left. simpl. f_equal. apply IH.
  intros k v Hin. apply (H k v). now right.
Qed.

(** Pruning finds no victim only when every entry under another key is
    in flight. *)
Lemma no_candidate ex c k v :
  prune_candidates ex c = [] -> In (k, v) c -> k <> ex -> has_data v = false.
Proof.
  intros E Hin Hk. destruct (has_data v) eqn:Hd; [|reflexivity].
  assert (Hc : In (k, v) (prune_candidates ex c)) by now apply In_candidate.
  now rewrite E in Hc.
Qed.

Lemma miss_size st key now :
  let c' := map_set key (InFlight now (fetches st))
              (pruneHotspotsCache max_entries key (hotspotsCache st)) in
  (map_size c' <= Nat.max (map_size (hotspotsCache st))
                    (Nat.max max_entries (in_flight c')))%nat.
Proof.
  intros c'. subst c'. unfold pruneHotspotsCache.
  set (c := hotspotsCache st).
  destruct (Nat.ltb_spec (map_size c) max_entries) as [Hlt|Hge].
  - pose proof (map_size_set_le key (InFlight now (fetches st)) c). lia.
  - destruct (prune_candidates key c) as [|[kv vv] rest] eqn:E.
    + destruct (map_get key c) eqn:Hget.
      * rewrite map_size_set_present by congruence. lia.
      * rewrite map_set_absent by assumption.
        assert (Hall : in_flight (c ++ [(key, InFlight now (fetches st))])
                       = map_size (c ++ [(key, InFlight now (fetches st))])).
        { apply in_flight_all. intros k v Hin.
          apply in_app_or in Hin as [Hin|[[= <- <-]|[]]]; [|reflexivity].
          apply (no_candidate key c k v E Hin).
          intros ->. now apply In_map_get in Hin. }
        lia.
    + apply prune_candidates_head in E as (Hin & _). cbn [fst].
      pose proof (map_size_delete_lt _ _ _ Hin).
      pose proof (map_size_set_le key (InFlight now (fetches st)) (map_delete kv c)).
      lia.
Qed.

Lemma step_size st e :
  wf st ->
  (map_size (hotspotsCache (step max_entries st e))
   <= Nat.max (map_size (hotspotsCache st))
        (Nat.max max_entries (in_flight (hotspotsCache (step max_entries st e)))))%nat.
Proof.
  intros [Hnd Hp]. destruct e as [params now|p data now|p]; simpl.
  - unfold fetchHotspotsGridCached.
    destruct (map_get (hotspotsCacheKey params) (hotspotsCache st))
      as [[data ts|ts q]|] eqn:Hget; simpl; [|lia|].
    + destruct (now - ts <? HOTSPOTS_CACHE_TTL_MS); simpl; [lia|].
      apply miss_size.
    + apply miss_size.
  - unfold fetch_fulfilled.
    destruct (promise_key p (pending st)) as [key|] eqn:Hkey; simpl; [|lia].
    destruct (Hp p key Hkey) as [ts Hts].
    rewrite map_size_set_present by congruence. lia.
  - unfold fetch_rejected.
    destruct (promise_key p (pending st)) as [key|] eqn:Hkey; simpl; [|lia].
    pose proof (map_size_delete_le key (hotspotsCache st)). lia.
Qed.

Lemma peak_from_ge st evs :
  (in_flight (hotspotsCache st) <= peak_from max_entries st evs)%nat.
Proof. destruct evs; simpl; lia. Qed.

Lemma size_run_from st evs :
  wf st ->
  (map_size (hotspotsCache (fold_left (step max_entries) evs st))
   <= Nat.max (map_size (hotspotsCache st))
        (Nat.max max_entries (peak_from max_entries st evs)))%nat.
Proof.
  revert st; induction evs as [|e evs IH]; intros st Hwf; simpl; [lia|].
  pose proof (IH _ (wf_step st e Hwf)) as H1.
  pose proof (step_size st e Hwf) as H2.
  pose proof (peak_from_ge (step max_entries st e) evs) as H3.
  lia.
Qed.

(** A call that finds the cache at capacity with a completed entry under
    another key does not make the cache larger. *)
Lemma fetch_size_at_capacity st params now k d t :
  (max_entries <= map_size (hotspotsCache st))%nat ->
  In (k, Data d t) (hotspotsCache st) -> k <> hotspotsCacheKey params ->
  (map_size (hotspotsCache (snd (fetchHotspotsGridCached max_entries params now st)))
   <= map_size (hotspotsCache st))%nat.
Proof.
  intros Hfull Hin Hk.
  assert (Hmiss :
    (map_size (map_set (hotspotsCacheKey params) (InFlight now (fetches st))
                 (pruneHotspotsCache max_entries (hotspotsCacheKey params)
                    (hotspotsCache st)))
     <= map_size (hotspotsCache st))%nat).
  { destruct (prune_oldest max_entries _ _ _ _ _ Hfull Hin Hk)
      as (kv & dv & tv & Hv & _ & _ & ->).
    pose proof (map_size_delete_lt _ _ _ Hv).
    pose proof (map_size_set_le (hotspotsCacheKey params)
                  (InFlight now (fetches st)) (map_delete kv (hotspotsCache st))).
    lia. }
  unfold fetchHotspotsGridCached.
  destruct (map_get (hotspotsCacheKey params) (hotspotsCache st))
    as [[data ts|ts q]|]; simpl; [|lia|exact Hmiss].
  destruct (now - ts <? HOTSPOTS_CACHE_TTL_MS); simpl; [lia | exact Hmiss].
Qed.

(** C5, amended: along every run from the empty cache, the number of
    entries never exceeds the larger of the capacity and the largest
    number of fetches that were in flight at once; so it never exceeds
    the capacity as long as no more fetches than that are in flight
    together; and a call that finds the cache at capacity with a completed
    entry under another key evicts before it inserts, so that the cache
    does not grow. *)
Theorem cache_size_bounded (evs : list (@Event R)) :
  (map_size (hotspotsCache (run max_entries evs))
   <= Nat.max max_entries (peak_in_flight max_entries evs))%nat /\
  ((peak_in_flight max_entries evs <= max_entries)%nat ->
   (map_size (hotspotsCache (run max_entries evs)) <= max_entries)%nat) /\
  (forall params now k d t,
     let st := run max_entries evs in
     (max_entries <= map_size (hotspotsCache st))%nat ->
     In (k, Data d t) (hotspotsCache st) -> k <> hotspotsCacheKey params ->
     (map_size (hotspotsCache
                 (snd (fetchHotspotsGridCached max_entries params now st)))
      <= map_size (hotspotsCache st))%nat).
Proof.
  pose proof (size_run_from init evs wf_init) as H.
  unfold run, peak_in_flight. simpl in H.
  split; [lia|]. split; [intros Hpeak; lia|].
  intros params now k d t H1 H2 H3.
  exact (fetch_size_at_capacity _ params now k d t H1 H2 H3).
Qed.

End SizeBound.

(** ** The scenarios of the claims on the cache *)




Lemma expired_entry_is_a_miss_witness :
  fst (fetchHotspotsGridCached HOTSPOTS_CACHE_MAX_ENTRIES (req "A") 3100
         (run HOTSPOTS_CACHE_MAX_ENTRIES stored_scenario))
  = Promise 1.
Proof.
  apply (expired_entry_is_a_miss HOTSPOTS_CACHE_MAX_ENTRIES
           (run HOTSPOTS_CACHE_MAX_ENTRIES stored_scenario) (req "A")
           "data A"%string 100 3100).
  - reflexivity.
  - vm_compute. discriminate.
Defined.

(** C5, as stated, fails: fifty-one requests for different keys, none
    answered yet, leave fifty-one entries in the cache; the fifty-first
    insertion evicts nothing, since pruning never removes an entry that is
    in flight. *)
Lemma burst_exceeds_capacity :
  map_size (hotspotsCache (run HOTSPOTS_CACHE_MAX_ENTRIES (burst 50))) = 50%nat /\
  map_size (hotspotsCache (run HOTSPOTS_CACHE_MAX_ENTRIES (burst 51))) = 51%nat /\
  ~ (map_size (hotspotsCache (run HOTSPOTS_CACHE_MAX_ENTRIES (burst 51)))
     <= HOTSPOTS_CACHE_MAX_ENTRIES)%nat.
Proof.
  assert (H : map_size (hotspotsCache (run HOTSPOTS_CACHE_MAX_ENTRIES (burst 51)))
              = 51%nat) by (vm_compute; reflexivity).
  split; [vm_compute; reflexivity|]. split; [exact H|].
  rewrite H. unfold HOTSPOTS_CACHE_MAX_ENTRIES. lia.
Qed.

Lemma cache_size_bounded_witness :
  (map_size (hotspotsCache (run HOTSPOTS_CACHE_MAX_ENTRIES full_scenario))
   <= HOTSPOTS_CACHE_MAX_ENTRIES)%nat.
Proof.
  apply (proj1 (proj2 (cache_size_bounded HOTSPOTS_CACHE_MAX_ENTRIES full_scenario))).
  vm_compute. repeat constructor.
Defined.

Lemma failed_fetch_is_not_cached_witness :
  map_get (hotspotsCacheKey (req "A"))
    (hotspotsCache (run HOTSPOTS_CACHE_MAX_ENTRIES failing_scenario)) = None /\
  fst (fetchHotspotsGridCached HOTSPOTS_CACHE_MAX_ENTRIES (req "A") 5
         (run HOTSPOTS_CACHE_MAX_ENTRIES failing_scenario))
  = Promise 1.
Proof.
  pose proof (failed_fetch_is_not_cached HOTSPOTS_CACHE_MAX_ENTRIES
                (run HOTSPOTS_CACHE_MAX_ENTRIES one_call) 0
                (hotspotsCacheKey (req "A")) eq_refl) as (H1 & _ & H3).
  split.
  - exact H1.
  - exact (proj1 (H3 (req "A") 5 eq_refl)).
Defined.

Lemma in_flight_call_is_deduplicated_witness :
  fetchHotspotsGridCached HOTSPOTS_CACHE_MAX_ENTRIES (req "A") 5000
    (run HOTSPOTS_CACHE_MAX_ENTRIES one_call)
  = (Promise 0, run HOTSPOTS_CACHE_MAX_ENTRIES [Call (req "A") 0]) /\
  fetches (run HOTSPOTS_CACHE_MAX_ENTRIES two_calls) = 1%nat.
Proof.
  split.
  - apply (proj1 (in_flight_call_is_deduplicated HOTSPOTS_CACHE_MAX_ENTRIES
                    (run HOTSPOTS_CACHE_MAX_ENTRIES one_call) (req "A")))
      with (ts := 0).
    reflexivity.
  - pose proof (proj2 (in_flight_call_is_deduplicated (R := string)
                  HOTSPOTS_CACHE_MAX_ENTRIES init (req "A")) 0 5000 0%nat eq_refl)
      as [H _].
    change (fetches (snd (fetchHotspotsGridCached HOTSPOTS_CACHE_MAX_ENTRIES
              (req "A") 5000
              (snd (fetchHotspotsGridCached HOTSPOTS_CACHE_MAX_ENTRIES
                      (req "A") 0 (@init string))))) = 1%nat).
    rewrite H. reflexivity.
Defined.

(** ** The retry loop *)

Section RetryFacts.

Import Retry.

Lemma round_half_even_bounds (n k : Z) :
  0 <= n -> 0 < k ->
  0 <= round_half_even n k * 2 ^ k <= n + 2 ^ (k - 1).
Proof.
  intros Hn Hk. unfold round_half_even.
  assert (Hpow : 2 ^ k = 2 * 2 ^ (k - 1)).
  { replace k with (Z.succ (k - 1)) at 1 by lia. apply Z.pow_succ_r. lia. }
  assert (Hhalf : 0 < 2 ^ (k - 1)) by (apply Z.pow_pos_nonneg; lia).
  pose proof (Z.div_mod n (2 ^ k)) as Hdm.
  pose proof (Z.mod_pos_bound n (2 ^ k)) as Hmod.
  assert (Hq : 0 <= n / 2 ^ k) by (apply Z.div_pos; lia).
  set (q := n / 2 ^ k) in *. set (r := n mod 2 ^ k) in *.
  set (h := 2 ^ (k - 1)) in *.
  assert (Hn' : n = 2 * h * q + r) by (rewrite <- Hpow; apply Hdm; lia).
  assert (Hr : 0 <= r < 2 * h) by (rewrite <- Hpow; apply Hmod; lia).
  rewrite Hpow.
  destruct (Z.ltb_spec r h); [nia|].
  destruct (Z.ltb_spec h r); [nia|].
  destruct (Z.even q); nia.
Qed.

Lemma floor_of_double_80 (m : Z) :
  random_ok m -> 0 <= floor_of_double (m * 80) 53 <= 79.
Proof.
  unfold random_ok, floor_of_double. intros [H0 H1].
  destruct (Z.leb_spec (Z.log2 (m * 80)) 52) as [Hl|Hl].
  - split; [apply Z.div_pos; lia|].
    assert (m * 80 / 2 ^ 53 < 80) by (apply Z.div_lt_upper_bound; lia). lia.
  - assert (Hn : 0 < m * 80).
    { destruct (Z.eq_dec m 0) as [->|]; [simpl in Hl; lia | lia]. }
    assert (Hl60 : Z.log2 (m * 80) < 60).
    { apply Z.log2_lt_pow2; [assumption|]. change (2 ^ 60) with (128 * 2 ^ 53). lia. }
    set (k := Z.log2 (m * 80) - 52) in *.
    assert (Hk : 0 < k <= 7) by lia.
    pose proof (round_half_even_bounds (m * 80) k ltac:(lia) ltac:(lia)) as [Hr0 Hr1].
    assert (Hhalf : 2 ^ (k - 1) <= 2 ^ 6) by (apply Z.pow_le_mono_r; lia).
    change (2 ^ 6) with 64 in Hhalf.
    split; [apply Z.div_pos; lia|].
    assert (round_half_even (m * 80) k * 2 ^ k / 2 ^ 53 < 80)
      by (apply Z.div_lt_upper_bound; [lia|];
          change (2 ^ 53 * 80) with 720575940379279360;
          change (2 ^ 53) with 9007199254740992 in H1; lia).
    lia.
Qed.

Lemma jitter_range (m : Z) : random_ok m -> 20 <= jitter m <= 99.
Proof.
  intros Hm. unfold jitter. pose proof (floor_of_double_80 m Hm). lia.
Qed.

(** The draw 0.85 is the double 7656119366529843 / 2^53; the product with
    80 rounds to 68. *)
Example jitter_at_0_85 : jitter 7656119366529843 = 88.
Proof. reflexivity. Qed.

Lemma on_catch_cases (attempt : nat) (e : Thrown) (m : Z) :
  (isAbortError e = true -> on_catch attempt e m = Dropped) /\
  (isAbortError e = false -> includes "429" (error_msg e) = false ->
   on_catch attempt e m = ErrorShown (error_msg e)) /\
  (isAbortError e = false -> includes "429" (error_msg e) = true ->
   (maxAttempts - 1 <= attempt)%nat -> on_catch attempt e m = RateLimitFailed) /\
  (isAbortError e = false -> includes "429" (error_msg e) = true ->
   (attempt < maxAttempts - 1)%nat ->
   on_catch attempt e m = RetryAfter (retry_delay attempt m)).
Proof.
  unfold on_catch. repeat split; intros Ha; rewrite Ha; try reflexivity.
  - intros ->. reflexivity.
  - intros -> H. destruct (Nat.ltb_spec attempt (maxAttempts - 1)); [lia|reflexivity].
  - intros -> H. destruct (Nat.ltb_spec attempt (maxAttempts - 1)); [reflexivity|lia].
Qed.

Lemma on_catch_retry_inv attempt e m d :
  on_catch attempt e m = RetryAfter d ->
  isAbortError e = false /\ includes "429" (error_msg e) = true /\
  (attempt < maxAttempts - 1)%nat /\ d = retry_delay attempt m.
Proof.
  unfold on_catch.
  destruct (isAbortError e); [discriminate|].
  destruct (includes "429" (error_msg e)); cbn [andb]; [|discriminate].
  destruct (Nat.ltb_spec attempt (maxAttempts - 1)); [|discriminate].
  intros [= <-]. auto.
Qed.

Lemma retry_delay_ok attempt m :
  random_ok m -> (attempt < maxAttempts - 1)%nat ->
  retry_delay attempt m
  = Some ((if Nat.eqb attempt 0 then 600 else 1200) + jitter m) /\
  delay_ok (retry_delay attempt m).
Proof.
  intros Hm Ha. pose proof (jitter_range m Hm).
  assert (attempt = 0 \/ attempt = 1)%nat as [->| ->]
    by (unfold maxAttempts in Ha; lia);
    (split; [reflexivity|]); eexists; (split; [reflexivity|]); lia.
Qed.

Lemma loop_from (env : Env) :
  (forall a, random_ok (random env a)) ->
  forall k attempt fuel,
    (attempt + k = maxAttempts)%nat -> (1 <= k)%nat -> (k <= fuel)%nat ->
    exists t,
      fetchHotspotsWithRetry fuel env attempt = Some t /\
      (attempts t <= k)%nat /\
      Forall delay_ok (delays t).
Proof.
  intros Hrnd. induction k as [|k IH]; intros attempt fuel Hk H1 Hfuel; [lia|].
  destruct fuel as [|fuel]; [lia|]. simpl.
  destruct (outcome env attempt) as [e|].
  2:{ eexists; split; [reflexivity|]. split; [cbv; lia | constructor]. }
  destruct (on_catch attempt e (random env attempt)) as [|d| |msg] eqn:E;
    try (eexists; split; [reflexivity|]; split; [cbv; lia | constructor]).
  apply on_catch_retry_inv in E as (_ & _ & Hlt & ->).
  pose proof (proj2 (retry_delay_ok attempt _ (Hrnd attempt) Hlt)) as Hd.
  destruct (still_current env attempt).
  - destruct (IH (S attempt) fuel) as (t & -> & Hat & Hdel);
      [lia | unfold maxAttempts in *; lia | lia |].
    eexists; split; [reflexivity|]. split.
    + unfold attempts in *. simpl. lia.
    + simpl. constructor; assumption.
  - eexists; split; [reflexivity|]. split; [cbv; lia|].
    simpl. constructor; [assumption | constructor].
Qed.

Lemma loop_shape (env : Env) :
  forall fuel attempt t,
    fetchHotspotsWithRetry fuel env attempt = Some t ->
    (exists rest, t = Attempt attempt :: rest) /\
    forall pre n post, t = pre ++ Attempt n :: post -> after_attempt env n post.
Proof.
  induction fuel as [|fuel IH]; intros attempt t; simpl; [discriminate|].
  assert (Hend : forall x pre n post,
            is_attempt x = false ->
            [Attempt attempt; x] = pre ++ Attempt n :: post ->
            n = attempt /\ post = [x]).
  { intros x pre n post Hx H. destruct pre as [|y pre]; simpl in H.
    - injection H as <- <-. now split.
    - injection H as _ H. destruct pre as [|z pre]; simpl in H.
      + injection H as -> _. discriminate Hx.
      + injection H as _ H. now destruct pre. }
  destruct (outcome env attempt) as [e|] eqn:Ho.
  2:{ intros [= <-]. split; [eauto|]. intros pre n post H.
      apply Hend in H as [-> ->]; [|reflexivity].
      unfold after_attempt. now rewrite Ho. }
  destruct (on_catch attempt e (random env attempt)) as [|d| |msg] eqn:E.
  - intros [= <-]. split; [eauto|]. intros pre n post H.
    apply Hend in H as [-> ->]; [|reflexivity].
    unfold after_attempt. now rewrite Ho, E.
  - destruct (still_current env attempt) eqn:Hc.
    + destruct (fetchHotspotsWithRetry fuel env (S attempt)) as [rest|] eqn:Hrest;
        [|discriminate].
      intros [= <-]. split; [eauto|].
      destruct (IH _ _ Hrest) as [[rest' ->] Hlaw].
      intros pre n post H. destruct pre as [|y pre]; simpl in H.
      * injection H as <- <-. unfold after_attempt. rewrite Ho, E, Hc. eauto.
      * injection H as _ H. destruct pre as [|z pre]; simpl in H;
          [discriminate H|].
        injection H as _ H. exact (Hlaw _ _ _ H).
    + intros [= <-]. split; [eauto|]. intros pre n post H.
      destruct pre as [|y pre]; simpl in H.
      * injection H as <- <-. unfold after_attempt. now rewrite Ho, E, Hc.
      * injection H as _ H. destruct pre as [|z pre]; simpl in H;
          [discriminate H|].
        injection H as _ H. destruct pre as [|w pre]; simpl in H;
          [discriminate H|].
        injection H as _ H. now destruct pre.
  - intros [= <-]. split; [eauto|]. intros pre n post H.
    apply Hend in H as [-> ->]; [|reflexivity].
    unfold after_attempt. now rewrite Ho, E.
  - intros [= <-]. split; [eauto|]. intros pre n post H.
    apply Hend in H as [-> ->]; [|reflexivity].
    unfold after_attempt. now rewrite Ho, E.
Qed.

End RetryFacts.

(** C8, as stated, fails: when every attempt is rate limited the loop waits
    twice, 600 and 1200 ms plus the jitter, and gives up at the third
    failure without a wait of 2400 ms; and a failure that is an abort,
    which is not a 429, is dropped without being surfaced. *)
Lemma retry_waits_twice_and_drops_aborts :
  Retry.fetchHotspotsWithRetry Retry.maxAttempts always429 0
  = Some [ Retry.Attempt 0; Retry.Caught (Retry.RetryAfter (Some 620));
           Retry.Attempt 1; Retry.Caught (Retry.RetryAfter (Some 1220));
           Retry.Attempt 2; Retry.Caught Retry.RateLimitFailed ] /\
  Retry.includes "429" (Retry.error_msg abortError) = false /\
  Retry.on_catch 0 abortError 0 = Retry.Dropped /\
  Retry.on_catch 0 abortError 0 <> Retry.ErrorShown (Retry.error_msg abortError) /\
  Retry.fetchHotspotsWithRetry Retry.maxAttempts always_aborted 0
  = Some [ Retry.Attempt 0; Retry.Caught Retry.Dropped ].
Proof. vm_compute. repeat split. discriminate. Qed.

(** C8, amended: a failure is retried only when it is not an abort, its
    message contains 429 and fewer than two retries were made; the wait
    is 600 ms after the first failure and 1200 ms after the second, plus a
    jitter between 20 and 99 ms (the third entry of the backoff table is
    never used); an abort is dropped; any other failure whose message does
    not contain 429 is shown at once without a retry; the third 429
    failure ends the loop; and the loop makes at most 3 attempts.  Of a
    run of the loop: it starts with attempt 0, a success or a failure that
    is dropped, shown or rate-limit-failed is the last event of the run,
    and a further attempt comes only after the wait of a retried
    failure. *)
Theorem retry_confined_to_rate_limits :
  (forall attempt e m,
     Retry.random_ok m ->
     (Retry.isAbortError e = true -> Retry.on_catch attempt e m = Retry.Dropped) /\
     (Retry.isAbortError e = false ->
      Retry.includes "429" (Retry.error_msg e) = false ->
      Retry.on_catch attempt e m = Retry.ErrorShown (Retry.error_msg e)) /\
     (Retry.isAbortError e = false ->
      Retry.includes "429" (Retry.error_msg e) = true ->
      (2 <= attempt)%nat -> Retry.on_catch attempt e m = Retry.RateLimitFailed) /\
     (Retry.isAbortError e = false ->
      Retry.includes "429" (Retry.error_msg e) = true ->
      (attempt < 2)%nat ->
      Retry.on_catch attempt e m
      = Retry.RetryAfter
          (Some ((if Nat.eqb attempt 0 then 600 else 1200) + Retry.jitter m)) /\
      20 <= Retry.jitter m <= 99)) /\
  (forall env,
     (forall a, Retry.random_ok (Retry.random env a)) ->
     exists t,
       Retry.fetchHotspotsWithRetry Retry.maxAttempts env 0 = Some t /\
       (Retry.attempts t <= 3)%nat /\
       Forall delay_ok (Retry.delays t)) /\
  (forall env t,
     Retry.fetchHotspotsWithRetry Retry.maxAttempts env 0 = Some t ->
     (exists rest, t = Retry.Attempt 0 :: rest) /\
     forall pre n post,
       t = pre ++ Retry.Attempt n :: post -> after_attempt env n post).
Proof.
  split; [|split].
  - intros attempt e m Hm.
    destruct (on_catch_cases attempt e m) as (H1 & H2 & H3 & H4).
    split; [exact H1|]. split; [exact H2|]. split.
    + intros Ha H429 Hge. now apply H3.
    + intros Ha H429 Hlt. split; [|now apply jitter_range].
      rewrite H4 by assumption.
      now rewrite (proj1 (retry_delay_ok attempt m Hm Hlt)).
  - intros env Hrnd.
    exact (loop_from env Hrnd Retry.maxAttempts 0%nat Retry.maxAttempts
             eq_refl (le_S _ _ (le_S _ _ (le_n 1))) (le_n _)).
  - intros env t Ht. exact (loop_shape env _ _ _ Ht).
Qed.

Lemma retry_confined_to_rate_limits_witness :
  Retry.on_catch 0 err500 0 = Retry.ErrorShown "Hotspots: HTTP 500" /\
  Retry.on_catch 1 err429 0 = Retry.RetryAfter (Some 1220) /\
  (exists t,
     Retry.fetchHotspotsWithRetry Retry.maxAttempts always429 0 = Some t /\
     (Retry.attempts t <= 3)%nat /\ Forall delay_ok (Retry.delays t)) /\
  after_attempt always500 0
    [ Retry.Caught (Retry.ErrorShown "Hotspots: HTTP 500") ] /\
  after_attempt always_aborted 0 [ Retry.Caught Retry.Dropped ].
Proof.
  assert (Hm : Retry.random_ok 0) by (split; [discriminate | reflexivity]).
  split; [|split; [|split; [|split]]].
  - apply (proj1 retry_confined_to_rate_limits 0%nat err500 0 Hm); reflexivity.
  - apply (proj1 retry_confined_to_rate_limits 1%nat err429 0 Hm);
      [reflexivity | reflexivity | repeat constructor].
  - apply (proj1 (proj2 retry_confined_to_rate_limits) always429).
    intros a. exact Hm.
  - apply (proj2 (proj2 (proj2 retry_confined_to_rate_limits) always500
             [ Retry.Attempt 0; Retry.Caught (Retry.ErrorShown "Hotspots: HTTP 500") ]
             eq_refl) []).
    reflexivity.
  - apply (proj2 (proj2 (proj2 retry_confined_to_rate_limits) always_aborted
             [ Retry.Attempt 0; Retry.Caught Retry.Dropped ] eq_refl) []).
    reflexivity.
Defined.

(** ** Busiest hour and day *)

Section ReduceFacts.

Variable A : Type.
Variable better : A -> A -> A.
Variable beats : A -> A -> Prop.
Hypothesis beats_refl : forall x, beats x x.
Hypothesis beats_trans : forall x y z, beats x y -> beats y z -> beats x z.
Hypothesis better_pick : forall best b, better best b = best \/ better best b = b.
Hypothesis better_beats_l : forall best b, beats (better best b) best.
Hypothesis better_beats_r : forall best b, beats (better best b) b.

Lemma fold_left_best (l : list A) (x : A) :
  In (fold_left better l x) (x :: l) /\
  forall b, In b (x :: l) -> beats (fold_left better l x) b.
Proof.
  revert x; induction l as [|a l IH]; intros x; simpl.
  - split; [now left|]. intros b [<-|[]]. apply beats_refl.
  - destruct (IH (better x a)) as [Hin Hall]. split.
    + destruct Hin as [Hin|Hin]; [|now right; right].
      rewrite <- Hin. destruct (better_pick x a) as [->| ->]; [now left|now right; left].
    + intros b [<-|[<-|Hb]].
      * eapply beats_trans; [apply Hall; now left | apply better_beats_l].
      * eapply beats_trans; [apply Hall; now left | apply better_beats_r].
      * apply Hall. now right.
Qed.

Lemma reduce_best (arr : list A) :
  (reduce better arr = None <-> arr = []) /\
  (arr <> [] ->
   exists best, reduce better arr = Some best /\ In best arr /\
                forall b, In b arr -> beats best b).
Proof.
  destruct arr as [|x l]; simpl.
  - split; [tauto | congruence].
  - split; [split; discriminate|]. intros _.
    exists (fold_left better l x). split; [reflexivity|]. apply fold_left_best.
Qed.

End ReduceFacts.

Lemma str_lt_iff (a b : string) : str_lt a b = true <-> String_as_OT.lt a b.
Proof.
  unfold str_lt, String_as_OT.lt.
  destruct (String_as_OT.compare a b); split; congruence.
Qed.

Lemma str_lt_irrefl (a : string) : str_lt a a = false.
Proof.
  destruct (str_lt a a) eqn:E; [|reflexivity].
  apply str_lt_iff in E. now apply (StrictOrder_Irreflexive a) in E.
Qed.

Lemma str_lt_asym (a b : string) : str_lt a b = true -> str_lt b a = false.
Proof.
  intros H. destruct (str_lt b a) eqn:E; [|reflexivity].
  apply str_lt_iff in H, E.
  exfalso. apply (StrictOrder_Irreflexive a). now transitivity b.
Qed.

Lemma str_nlt_trans (a b c : string) :
  str_lt a b = false -> str_lt b c = false -> str_lt a c = false.
Proof.
  intros Hab Hbc. destruct (str_lt a c) eqn:Hac; [|reflexivity].
  apply str_lt_iff in Hac.
  assert (Hnab : ~ String_as_OT.lt a b) by (rewrite <- str_lt_iff; congruence).
  assert (Hnbc : ~ String_as_OT.lt b c) by (rewrite <- str_lt_iff; congruence).
  exfalso.
  destruct (String_as_OT.compare_spec a b) as [Heq|Hlt|Hgt]; [|tauto|].
  - change (a = b) in Heq. subst. tauto.
  - destruct (String_as_OT.compare_spec b c) as [Heq|Hlt|Hgt']; [|tauto|].
    + change (b = c) in Heq. subst. apply (StrictOrder_Irreflexive c). now transitivity a.
    + apply (StrictOrder_Irreflexive a).
      transitivity c; [assumption|]. now transitivity b.
Qed.

Lemma busiestHour_reduce (buckets : list HourBucket.t) :
  busiestHour buckets = reduce better_hour buckets.
Proof. now destruct buckets. Qed.

Lemma busiestDay_reduce (buckets : list DayBucket.t) :
  busiestDay buckets = reduce better_day buckets.
Proof. now destruct buckets. Qed.

Lemma better_hour_facts :
  (forall x, beats_hour x x) /\
  (forall x y z, beats_hour x y -> beats_hour y z -> beats_hour x z) /\
  (forall best b, better_hour best b = best \/ better_hour best b = b) /\
  (forall best b, beats_hour (better_hour best b) best) /\
  (forall best b, beats_hour (better_hour best b) b).
Proof.
  unfold beats_hour, better_hour. repeat split.
  - intros x. lia.
  - intros x y z. lia.
  - intros best b. destruct (_ || _); auto.
  - intros best b.
    destruct (Z.gtb_spec (HourBucket.count b) (HourBucket.count best));
    destruct (Z.eqb_spec (HourBucket.count b) (HourBucket.count best));
    destruct (Z.ltb_spec (HourBucket.hour b) (HourBucket.hour best)); simpl; lia.
  - intros best b.
    destruct (Z.gtb_spec (HourBucket.count b) (HourBucket.count best));
    destruct (Z.eqb_spec (HourBucket.count b) (HourBucket.count best));
    destruct (Z.ltb_spec (HourBucket.hour b) (HourBucket.hour best)); simpl; lia.
Qed.

Lemma better_day_facts :
  (forall x, beats_day x x) /\
  (forall x y z, beats_day x y -> beats_day y z -> beats_day x z) /\
  (forall best b, better_day best b = best \/ better_day best b = b) /\
  (forall best b, beats_day (better_day best b) best) /\
  (forall best b, beats_day (better_day best b) b).
Proof.
  unfold beats_day, better_day. repeat split.
  - intros x. right. split; [reflexivity | apply str_lt_irrefl].
  - intros x y z [H1|[H1 L1]] [H2|[H2 L2]]; try (left; lia).
    right. split; [lia|]. now apply str_nlt_trans with (DayBucket.day y).
  - intros best b. destruct (_ || _); auto.
  - intros best b.
    destruct (Z.gtb_spec (DayBucket.count b) (DayBucket.count best));
    destruct (Z.eqb_spec (DayBucket.count b) (DayBucket.count best));
    destruct (str_lt (DayBucket.day b) (DayBucket.day best)) eqn:L; simpl;
      try (left; lia);
      try (right; split; [lia | now apply str_lt_asym]);
      right; split; try reflexivity; apply str_lt_irrefl.
  - intros best b.
    destruct (Z.gtb_spec (DayBucket.count b) (DayBucket.count best));
    destruct (Z.eqb_spec (DayBucket.count b) (DayBucket.count best));
    destruct (str_lt (DayBucket.day b) (DayBucket.day best)) eqn:L; simpl;
      try (right; split; [reflexivity | apply str_lt_irrefl]);
      try (left; lia);
      right; split; [lia | assumption].
Qed.

(** C9: [busiestHour] returns null exactly on the empty list; on a
    non-empty list it returns one of the buckets, whose count is maximal
    and whose hour is the smallest among the buckets with that count.
    [busiestDay] does the same with the days compared as strings. *)
Theorem busiest_spec :
  (forall buckets : list HourBucket.t,
     (busiestHour buckets = None <-> buckets = []) /\
     (buckets <> [] ->
      exists best,
        busiestHour buckets = Some best /\ In best buckets /\
        forall b, In b buckets ->
          HourBucket.count b <= HourBucket.count best /\
          (HourBucket.count b = HourBucket.count best ->
           HourBucket.hour best <= HourBucket.hour b))) /\
  (forall buckets : list DayBucket.t,
     (busiestDay buckets = None <-> buckets = []) /\
     (buckets <> [] ->
      exists best,
        busiestDay buckets = Some best /\ In best buckets /\
        forall b, In b buckets ->
          DayBucket.count b <= DayBucket.count best /\
          (DayBucket.count b = DayBucket.count best ->
           str_lt (DayBucket.day b) (DayBucket.day best) = false))).
Proof.
  split; intros buckets.
  - rewrite busiestHour_reduce.
    destruct better_hour_facts as (F1 & F2 & F3 & F4 & F5).
    destruct (reduce_best _ _ beats_hour F1 F2 F3 F4 F5 buckets) as [Hnil Hbest].
    split; [exact Hnil|]. intros Hne.
    destruct (Hbest Hne) as (best & E & Hin & Hall).
    exists best. split; [exact E|]. split; [exact Hin|]. intros b Hb.
    destruct (Hall b Hb) as [Hlt|[Heq Hh]]; lia.
  - rewrite busiestDay_reduce.
    destruct better_day_facts as (F1 & F2 & F3 & F4 & F5).
    destruct (reduce_best _ _ beats_day F1 F2 F3 F4 F5 buckets) as [Hnil Hbest].
    split; [exact Hnil|]. intros Hne.
    destruct (Hbest Hne) as (best & E & Hin & Hall).
    exists best. split; [exact E|]. split; [exact Hin|]. intros b Hb.
    destruct (Hall b Hb) as [Hlt|[Heq Hh]]; (split; [lia|]); intros Heq'.
    + lia.
    + exact Hh.
Qed.

Example busiestHour_sample :
  busiestHour sample_hours = Some (HourBucket.mk 9 40) /\
  busiestDay sample_days = Some (DayBucket.mk "2024-03-01" 7).
Proof. split; reflexivity. Qed.

Lemma busiest_spec_witness :
  (exists best,
     busiestHour sample_hours = Some best /\ In best sample_hours /\
     forall b, In b sample_hours ->
       HourBucket.count b <= HourBucket.count best /\
       (HourBucket.count b = HourBucket.count best ->
        HourBucket.hour best <= HourBucket.hour b)) /\
  busiestDay [] = None.
Proof.
  split.
  - apply (proj2 (proj1 busiest_spec sample_hours)). discriminate.
  - apply (proj1 (proj2 busiest_spec [])). reflexivity.
Defined.

(** ** Zone selection *)

Lemma includes_id_In (selectedIds : list Z) (id : Z) :
  includes_id selectedIds id = true <-> In id selectedIds.
Proof.
  unfold includes_id. rewrite existsb_exists. split.
  - intros (x & Hin & E). apply Z.eqb_eq in E. now subst.
  - intros Hin. exists id. split; [assumption | apply Z.eqb_refl].
Qed.

(** C10: [addZone] keeps the selection free of duplicates and of length
    at most [MAX_ZONES]; when the id is already selected or the selection
    has reached [MAX_ZONES] entries, [onSelectionChange] is not called and
    the selection stays as it is; otherwise it is called with the old
    selection followed by the id. *)
Theorem addZone_spec (selectedIds : list Z) (id : Z) :
  (NoDup selectedIds -> (List.length selectedIds <= MAX_ZONES)%nat ->
   NoDup (selection_after selectedIds id) /\
   (List.length (selection_after selectedIds id) <= MAX_ZONES)%nat) /\
  (In id selectedIds \/ (MAX_ZONES <= List.length selectedIds)%nat ->
   addZone selectedIds id = None /\ selection_after selectedIds id = selectedIds) /\
  (~ In id selectedIds -> (List.length selectedIds < MAX_ZONES)%nat ->
   addZone selectedIds id = Some (selectedIds ++ [id]) /\
   selection_after selectedIds id = selectedIds ++ [id]).
Proof.
  unfold selection_after, addZone.
  destruct (includes_id selectedIds id) eqn:Hinc;
    destruct (Nat.leb_spec MAX_ZONES (List.length selectedIds)) as [Hfull|Hroom];
    simpl.
  1-3: repeat split; auto; intros;
       try (apply includes_id_In in Hinc; contradiction); lia.
  assert (Hnotin : ~ In id selectedIds).
  { rewrite <- includes_id_In. congruence. }
  repeat split; auto.
  - apply NoDup_app; [assumption | repeat constructor; simpl; tauto |].
    intros x Hx [<-|[]]. contradiction.
  - rewrite length_app. simpl. lia.
  - destruct H; [contradiction | lia].
  - destruct H; [contradiction | lia].
Qed.

Lemma addZone_spec_witness :
  (NoDup (selection_after two_zones 7) /\
   (List.length (selection_after two_zones 7) <= MAX_ZONES)%nat) /\
  addZone two_zones 3 = None /\
  addZone five_zones 9 = None /\
  addZone two_zones 7 = Some [3; 1; 7].
Proof.
  split; [|split; [|split]].
  - apply (proj1 (addZone_spec two_zones 7)).
    + repeat constructor; simpl; intuition discriminate.
    + unfold MAX_ZONES. simpl. lia.
  - apply (proj1 (proj2 (addZone_spec two_zones 3))). left. simpl. now left.
  - apply (proj1 (proj2 (addZone_spec five_zones 9))). right.
    unfold MAX_ZONES. simpl. lia.
  - apply (proj2 (proj2 (addZone_spec two_zones 7))).
    + simpl. intuition discriminate.
    + unfold MAX_ZONES. simpl. lia.
Defined.

(** * Further properties of the cache *)

Section CacheInvariants.

Context {R : Type}.
Variable max_entries : nat.
Implicit Types (st : State R) (c : JsMap R).

Lemma promise_key_In p k ps : promise_key p ps = Some k -> In (p, k) ps.
Proof.
  induction ps as [|[q k0] ps IH]; simpl; [discriminate|].
  destruct (Nat.eqb_spec q p) as [->|Hq].
  - intros [= ->]. now left.
  - intros H. right. auto.
Qed.

Lemma In_forget p q k ps : In (q, k) (forget p ps) -> In (q, k) ps.
Proof. unfold forget. intros H. now apply filter_In in H. Qed.

Lemma wf_strong_init : wf_strong (@init R).
Proof.
  split; [apply wf_init|]. split; [discriminate|]. intros p k [].
Qed.

Lemma wf_strong_miss st key now :
  wf_strong st ->
  (forall ts p, map_get key (hotspotsCache st) <> Some (InFlight ts p)) ->
  wf_strong (mkState
        (map_set key (InFlight now (fetches st))
           (pruneHotspotsCache max_entries key (hotspotsCache st)))
        ((fetches st, key) :: pending st) (S (fetches st))).
Proof.
  intros (Hwf & Hback & Hfresh) Hkey.
  split; [now apply wf_miss|]. split; simpl.
  - intros k ts p. destruct (String.eqb_spec key k) as [<-|Hne].
    + rewrite map_get_set_same. intros [= <- <-]. now rewrite Nat.eqb_refl.
    + rewrite map_get_set_other by assumption. intros Hget.
      apply map_get_prune_sub in Hget. apply Hback in Hget.
      destruct (Nat.eqb_spec (fetches st) p) as [<-|]; [|assumption].
      apply promise_key_In, Hfresh in Hget. lia.
  - intros p k [[= <- <-]|Hin]; [lia|]. apply Hfresh in Hin. lia.
Qed.

Lemma wf_strong_step st e : wf_strong st -> wf_strong (step max_entries st e).
Proof.
  intros Hs. pose proof Hs as (Hwf & Hback & Hfresh).
  destruct e as [params now|p data now|p]; simpl.
  - unfold fetchHotspotsGridCached.
    destruct (map_get (hotspotsCacheKey params) (hotspotsCache st))
      as [[data ts|ts q]|] eqn:Hget; simpl; [|assumption|].
    + destruct (now - ts <? HOTSPOTS_CACHE_TTL_MS); simpl; [assumption|].
      apply wf_strong_miss; [assumption | congruence].
    + apply wf_strong_miss; [assumption | congruence].
  - pose proof (wf_step max_entries st (Fulfil p data now) Hwf) as Hwf'.
    simpl in Hwf'. unfold fetch_fulfilled in *.
    destruct (promise_key p (pending st)) as [key|] eqn:Hkey; [|assumption].
    split; [assumption|]. split; simpl.
    + intros k ts q. destruct (String.eqb_spec key k) as [<-|Hne].
      * rewrite map_get_set_same. discriminate.
      * rewrite map_get_set_other by assumption. intros Hget.
        apply Hback in Hget. rewrite promise_key_forget.
        destruct (Nat.eqb_spec p q) as [->|]; [congruence | assumption].
    + intros q k Hin. apply In_forget in Hin. exact (Hfresh _ _ Hin).
  - pose proof (wf_step max_entries st (Reject p) Hwf) as Hwf'.
    simpl in Hwf'. unfold fetch_rejected in *.
    destruct (promise_key p (pending st)) as [key|] eqn:Hkey; [|assumption].
    split; [assumption|]. split; simpl.
    + intros k ts q. rewrite map_get_delete.
      destruct (String.eqb_spec key k) as [<-|Hne]; [discriminate|].
      intros Hget. apply Hback in Hget. rewrite promise_key_forget.
      destruct (Nat.eqb_spec p q) as [->|]; [congruence | assumption].
    + intros q k Hin. apply In_forget in Hin. exact (Hfresh _ _ Hin).
Qed.

Lemma wf_strong_run_from st evs :
  wf_strong st -> wf_strong (fold_left (step max_entries) evs st).
Proof.
  revert st; induction evs as [|e evs IH]; simpl; auto using wf_strong_step.
Qed.

(** X1: in every state reached from the empty cache, the cache has one
    binding per key, the in-flight entries and the pending fetches
    correspond one to one, and no two pending fetches have the same
    key. *)
Theorem reachable_in_flight_matches_pending (evs : list (@Event R)) :
  let st := run max_entries evs in
  NoDup (map fst (hotspotsCache st)) /\
  (forall p k, promise_key p (pending st) = Some k <->
               exists ts, map_get k (hotspotsCache st) = Some (InFlight ts p)) /\
  (forall p q k, promise_key p (pending st) = Some k ->
                 promise_key q (pending st) = Some k -> p = q).
Proof.
  intros st.
  destruct (wf_strong_run_from init evs wf_strong_init)
    as ((Hnd & Hfwd) & Hback & _).
  fold (run max_entries evs) in Hnd, Hfwd, Hback. fold st in Hnd, Hfwd, Hback.
  split; [exact Hnd|]. split.
  - intros p k. split; [apply Hfwd|]. intros [ts Hts]. eapply Hback, Hts.
  - intros p q k Hp Hq.
    destruct (Hfwd _ _ Hp) as [ts Hts]. destruct (Hfwd _ _ Hq) as [ts' Hts'].
    congruence.
Qed.

Lemma prune_below_capacity (c : JsMap R) excludeKey :
  (map_size c < max_entries)%nat ->
  pruneHotspotsCache max_entries excludeKey c = c.
Proof.
  intros H. unfold pruneHotspotsCache.
  destruct (Nat.ltb_spec (map_size c) max_entries); [reflexivity | lia].
Qed.

(** An entry with data stays as it is through a step that does not prune
    and is not a call for its key after its expiry. *)
Lemma data_kept_by_step st e key data t :
  wf st ->
  map_get key (hotspotsCache st) = Some (Data data t) ->
  match e with
  | Call params now =>
      (map_size (hotspotsCache st) < max_entries)%nat /\
      (hotspotsCacheKey params = key -> now - t < HOTSPOTS_CACHE_TTL_MS)
  | _ => True
  end ->
  map_get key (hotspotsCache (step max_entries st e)) = Some (Data data t).
Proof.
  intros [Hnd Hp] Hget He. destruct e as [params now|p d' now|p]; simpl.
  - destruct He as [Hsize Hfresh].
    destruct (String.eqb_spec (hotspotsCacheKey params) key) as [Hk|Hk].
    + rewrite (fetch_hit_eq max_entries params now st data t);
        [assumption | now rewrite Hk | auto].
    + unfold fetchHotspotsGridCached.
      rewrite prune_below_capacity by assumption.
      destruct (map_get (hotspotsCacheKey params) (hotspotsCache st))
        as [[d0 ts0|ts0 q]|]; simpl; try assumption.
      * destruct (now - ts0 <? HOTSPOTS_CACHE_TTL_MS); simpl; [assumption|].
        now rewrite map_get_set_other.
      * now rewrite map_get_set_other.
  - unfold fetch_fulfilled.
    destruct (promise_key p (pending st)) as [k|] eqn:Hk; simpl; [|assumption].
    destruct (Hp p k Hk) as [ts Hts].
    rewrite map_get_set_other; [assumption | congruence].
  - unfold fetch_rejected.
    destruct (promise_key p (pending st)) as [k|] eqn:Hk; simpl; [|assumption].
    destruct (Hp p k Hk) as [ts Hts].
    rewrite map_get_delete.
    destruct (String.eqb_spec k key) as [->|]; [congruence | assumption].
Qed.

Lemma data_kept_by_run st evs key data t :
  wf st ->
  map_get key (hotspotsCache st) = Some (Data data t) ->
  stays_below_capacity max_entries st evs ->
  (forall params now, In (Call params now) evs ->
     hotspotsCacheKey params = key -> now - t < HOTSPOTS_CACHE_TTL_MS) ->
  map_get key (hotspotsCache (fold_left (step max_entries) evs st))
  = Some (Data data t).
Proof.
  revert st; induction evs as [|e evs IH]; intros st Hwf Hget Hcap Hfresh;
    simpl; [assumption|].
  destruct Hcap as [Hcap Hrest].
  apply IH; [now apply wf_step | | assumption |].
  - apply data_kept_by_step; [assumption | assumption |].
    destruct e as [params now| |]; [|exact I|exact I].
    split; [assumption|]. apply Hfresh. now left.
  - intros params now Hin. apply Hfresh. now right.
Qed.

(** X2: once the fetch of a pending promise has succeeded with [data] at
    time [t], a call for its key at a time [now] with
    [now - t < HOTSPOTS_CACHE_TTL_MS] returns that data, starts no fetch
    and leaves the state as it is: directly after the success, from any
    state; and, after a run from the empty cache, also after any further
    events among which no call finds the cache at capacity and no call for
    the key comes at or after the expiry of the entry. *)
Theorem fulfilled_fetch_is_served_from_cache :
  (forall st p key data t params now,
     promise_key p (pending st) = Some key ->
     hotspotsCacheKey params = key ->
     now - t < HOTSPOTS_CACHE_TTL_MS ->
     fetchHotspotsGridCached max_entries params now (fetch_fulfilled p data t st)
     = (Value data, fetch_fulfilled p data t st)) /\
  (forall (evs evs' : list (@Event R)) p key data t params now,
     promise_key p (pending (run max_entries evs)) = Some key ->
     stays_below_capacity max_entries
       (fetch_fulfilled p data t (run max_entries evs)) evs' ->
     (forall params' now', In (Call params' now') evs' ->
        hotspotsCacheKey params' = key -> now' - t < HOTSPOTS_CACHE_TTL_MS) ->
     hotspotsCacheKey params = key ->
     now - t < HOTSPOTS_CACHE_TTL_MS ->
     fetchHotspotsGridCached max_entries params now
       (fold_left (step max_entries) evs'
          (fetch_fulfilled p data t (run max_entries evs)))
     = (Value data,
        fold_left (step max_entries) evs'
          (fetch_fulfilled p data t (run max_entries evs)))).
Proof.
  assert (Hstored : forall st p key data t,
            promise_key p (pending st) = Some key ->
            map_get key (hotspotsCache (fetch_fulfilled p data t st))
            = Some (Data data t)).
  { intros st p key data t Hp. unfold fetch_fulfilled. rewrite Hp. simpl.
    apply map_get_set_same. }
  split.
  - intros st p key data t params now Hp <- Hnow.
    apply fetch_hit_eq with t; [now apply Hstored | assumption].
  - intros evs evs' p key data t params now Hp Hcap Hfresh <- Hnow.
    apply fetch_hit_eq with t; [|assumption].
    apply data_kept_by_run; [| now apply Hstored | assumption | assumption].
    change (fetch_fulfilled p data t (run max_entries evs))
      with (step max_entries (run max_entries evs) (Fulfil p data t)).
    apply wf_step. apply wf_run_from, wf_init.
Qed.

Lemma data_after_step st e k d ts :
  map_get k (hotspotsCache (step max_entries st e)) = Some (Data d ts) ->
  map_get k (hotspotsCache st) = Some (Data d ts) \/
  exists p, e = Fulfil p d ts.
Proof.
  destruct e as [params now|p data now|p]; simpl.
  - assert (Hmiss :
      map_get k (map_set (hotspotsCacheKey params) (InFlight now (fetches st))
                   (pruneHotspotsCache max_entries (hotspotsCacheKey params)
                      (hotspotsCache st))) = Some (Data d ts) ->
      map_get k (hotspotsCache st) = Some (Data d ts)).
    { destruct (String.eqb_spec (hotspotsCacheKey params) k) as [<-|Hne].
      - rewrite map_get_set_same. discriminate.
      - rewrite map_get_set_other by assumption. apply map_get_prune_sub. }
    unfold fetchHotspotsGridCached.
    destruct (map_get (hotspotsCacheKey params) (hotspotsCache st))
      as [[data0 ts0|ts0 q]|]; simpl; auto.
    destruct (now - ts0 <? HOTSPOTS_CACHE_TTL_MS); simpl; auto.
  - unfold fetch_fulfilled.
    destruct (promise_key p (pending st)) as [key|]; simpl; auto.
    destruct (String.eqb_spec key k) as [<-|Hne].
    + rewrite map_get_set_same. intros [= <- <-]. right. now exists p.
    + rewrite map_get_set_other by assumption. auto.
  - unfold fetch_rejected.
    destruct (promise_key p (pending st)) as [key|]; simpl; auto.
    rewrite map_get_delete. destruct (String.eqb key k); [discriminate | auto].
Qed.

Lemma data_after_run_from st evs k d ts :
  map_get k (hotspotsCache (fold_left (step max_entries) evs st))
  = Some (Data d ts) ->
  map_get k (hotspotsCache st) = Some (Data d ts) \/
  exists p, In (Fulfil p d ts) evs.
Proof.
  revert st; induction evs as [|e evs IH]; intros st; simpl; [auto|].
  intros H. destruct (IH _ H) as [H'|[p Hp]].
  - destruct (data_after_step _ _ _ _ _ H') as [H0|[p ->]]; [now left|].
    right. exists p. now left.
  - right. exists p. now right.
Qed.

(** X3: every completed entry of a reachable cache holds the payload of a
    fetch that succeeded during the run, with [ts] the time of that
    success: data gets into the cache in no other way. *)
Theorem cached_data_comes_from_a_fetch (evs : list (@Event R)) k d ts :
  map_get k (hotspotsCache (run max_entries evs)) = Some (Data d ts) ->
  exists p, In (Fulfil p d ts) evs.
Proof.
  intros H. destruct (data_after_run_from init evs k d ts H) as [H0|H0].
  - discriminate H0.
  - exact H0.
Qed.

Lemma map_size_delete_NoDup k (v : HotspotsCacheEntry R) c :
  NoDup (map fst c) -> In (k, v) c ->
  S (map_size (map_delete k c)) = map_size c.
Proof.
  unfold map_size, map_delete.
  induction c as [|[k0 v0] c IH]; simpl; [tauto|].
  intros Hnd Hin. inversion Hnd as [|? ? Hnotin Hnd']; subst.
  destruct (String.eqb_spec k0 k) as [->|Hne]; simpl.
  - f_equal. clear IH Hin Hnd.
    induction c as [|[k1 v1] c IH]; simpl; [reflexivity|].
    simpl in Hnotin. inversion Hnd'; subst.
    destruct (String.eqb_spec k1 k) as [->|]; [tauto|].
    simpl. f_equal. apply IH; tauto.
  - destruct Hin as [[= -> ->]|Hin]; [congruence|].
    f_equal. now apply IH.
Qed.

(** X4: on a cache with one binding per key, pruning removes at most one
    entry; it never removes the entry of the requested key nor an entry
    that is in flight, and it adds or changes nothing. *)
Theorem prune_removes_at_most_one_completed_entry c excludeKey :
  NoDup (map fst c) ->
  (map_size c <= S (map_size (pruneHotspotsCache max_entries excludeKey c)))%nat /\
  map_get excludeKey (pruneHotspotsCache max_entries excludeKey c)
  = map_get excludeKey c /\
  (forall k ts p, map_get k c = Some (InFlight ts p) ->
     map_get k (pruneHotspotsCache max_entries excludeKey c)
     = Some (InFlight ts p)) /\
  (forall k v, map_get k (pruneHotspotsCache max_entries excludeKey c) = Some v ->
               map_get k c = Some v).
Proof.
  intros Hnd. split; [|split; [|split]].
  - destruct (prune_cases max_entries excludeKey c)
      as [->|(kv & dv & tv & Hin & _ & ->)]; [lia|].
    rewrite <- (map_size_delete_NoDup _ _ _ Hnd Hin). lia.
  - apply map_get_prune_exclude.
  - intros k ts p. now apply map_get_prune_in_flight.
  - intros k v. apply map_get_prune_sub.
Qed.

End CacheInvariants.

Lemma reachable_in_flight_matches_pending_witness :
  exists ts,
    map_get (hotspotsCacheKey (req "A"))
      (hotspotsCache (run HOTSPOTS_CACHE_MAX_ENTRIES two_calls))
    = Some (InFlight ts 0).
Proof.
  apply (proj1 (proj1 (proj2
           (reachable_in_flight_matches_pending HOTSPOTS_CACHE_MAX_ENTRIES two_calls))
           0%nat (hotspotsCacheKey (req "A")))).
  reflexivity.
Defined.

Lemma fulfilled_fetch_is_served_from_cache_witness :
  fetchHotspotsGridCached HOTSPOTS_CACHE_MAX_ENTRIES (req "A") 2999
    (run HOTSPOTS_CACHE_MAX_ENTRIES stored_scenario)
  = (Value "data A"%string, run HOTSPOTS_CACHE_MAX_ENTRIES stored_scenario) /\
  fst (fetchHotspotsGridCached HOTSPOTS_CACHE_MAX_ENTRIES (req "A") 2999
         (run HOTSPOTS_CACHE_MAX_ENTRIES (stored_scenario ++ later_events)))
  = Value "data A"%string.
Proof.
  split.
  - apply (proj1 (fulfilled_fetch_is_served_from_cache HOTSPOTS_CACHE_MAX_ENTRIES)
             (run HOTSPOTS_CACHE_MAX_ENTRIES one_call) 0%nat
             (hotspotsCacheKey (req "A")) "data A"%string 100 (req "A") 2999).
    + reflexivity.
    + reflexivity.
    + reflexivity.
  - pose proof (proj2 (fulfilled_fetch_is_served_from_cache HOTSPOTS_CACHE_MAX_ENTRIES)
                  one_call later_events 0%nat
                  (hotspotsCacheKey (req "A")) "data A"%string 100 (req "A") 2999
                  eq_refl) as H.
    change (run HOTSPOTS_CACHE_MAX_ENTRIES (stored_scenario ++ later_events))
      with (fold_left (step HOTSPOTS_CACHE_MAX_ENTRIES) later_events
              (fetch_fulfilled 0 "data A"%string 100
                 (run HOTSPOTS_CACHE_MAX_ENTRIES one_call))).
    rewrite H.
    + reflexivity.
    + vm_compute. repeat split; repeat constructor.
    + intros params' now' Hin Hkey.
      destruct Hin as [E|[E|[E|[]]]]; try discriminate E; injection E as <- <-;
        vm_compute in Hkey; discriminate Hkey.
    + reflexivity.
    + reflexivity.
Defined.

Lemma cached_data_comes_from_a_fetch_witness :
  exists p, In (Fulfil p "data B"%string 30) lru_scenario.
Proof.
  apply (cached_data_comes_from_a_fetch 2 lru_scenario
           (hotspotsCacheKey (req "B")) "data B"%string 30).
  reflexivity.
Defined.

Lemma prune_removes_at_most_one_completed_entry_witness :
  map_get (hotspotsCacheKey (req "C"))
    (pruneHotspotsCache 2 (hotspotsCacheKey (req "C"))
       (hotspotsCache (run 2 lru_prefix)))
  = map_get (hotspotsCacheKey (req "C")) (hotspotsCache (run 2 lru_prefix)).
Proof.
  apply (prune_removes_at_most_one_completed_entry 2
           (hotspotsCache (run 2 lru_prefix)) (hotspotsCacheKey (req "C"))).
  vm_compute. repeat constructor; simpl; intuition discriminate.
Defined.

(** * Further properties of the fetch and the retry loop *)

Lemma includes_429_status_check :
  forallb (fun n =>
             Bool.eqb (Retry.includes "429" (Retry.error_msg (http_error (Z.of_nat n))))
                      (Z.of_nat n =? 429))
          (seq 0 1000) = true.
Proof. vm_compute. reflexivity. Qed.

Lemma includes_429_status (status : Z) :
  0 <= status <= 999 ->
  Retry.includes "429" (Retry.error_msg (http_error status)) = (status =? 429).
Proof.
  intros Hs.
  pose proof (proj1 (forallb_forall _ _) includes_429_status_check (Z.to_nat status)) as H.
  cbv beta in H. rewrite Z2Nat.id in H by lia.
  apply Bool.eqb_prop. apply H. apply in_seq. lia.
Qed.

(** X5: for a response of [fetchHotspotsGrid] with a status between 0 and
    999 that is not ok, the retry loop treats the failure as a rate limit
    exactly when the status is 429: it then waits and retries at the first
    two attempts and gives up at the third; for every other status the
    message [Hotspots: HTTP <status>] is shown at once. *)
Theorem only_status_429_is_retried (status : Z) (attempt : nat) (m : Z) :
  0 <= status <= 999 ->
  res_ok status = false ->
  fetchHotspotsGrid_throws status = Some (http_error status) /\
  Retry.on_catch attempt (http_error status) m
  = (if status =? 429 then
       if (attempt <? 2)%nat then Retry.RetryAfter (Retry.retry_delay attempt m)
       else Retry.RateLimitFailed
     else Retry.ErrorShown ("Hotspots: HTTP " ++ JS.String_ status)%string).
Proof.
  intros Hs Hok. unfold fetchHotspotsGrid_throws. rewrite Hok.
  split; [reflexivity|].
  unfold Retry.on_catch.
  change (Retry.isAbortError (http_error status)) with false. cbv iota.
  rewrite (includes_429_status status Hs).
  destruct (status =? 429); [|reflexivity].
  change (Retry.maxAttempts - 1)%nat with 2%nat.
  destruct (attempt <? 2)%nat; reflexivity.
Qed.

Lemma only_status_429_is_retried_witness :
  Retry.on_catch 0 (http_error 503) 0 = Retry.ErrorShown "Hotspots: HTTP 503" /\
  Retry.on_catch 0 (http_error 429) 0 = Retry.RetryAfter (Some 620).
Proof.
  split.
  - apply (only_status_429_is_retried 503 0%nat 0).
    + split; discriminate.
    + reflexivity.
  - apply (only_status_429_is_retried 429 0%nat 0).
    + split; discriminate.
    + reflexivity.
Defined.

Section RetryWait.

Import Retry.

Lemma loop_wait (env : Env) :
  (forall a, random_ok (random env a)) ->
  forall fuel attempt t,
    fetchHotspotsWithRetry fuel env attempt = Some t ->
    0 <= total_wait (delays t) <= wait_bound attempt /\
    (List.length (delays t) <= 2 - attempt)%nat /\
    (attempts t <= S (List.length (delays t)))%nat.
Proof.
  intros Hrnd. induction fuel as [|fuel IH]; intros attempt t; simpl; [discriminate|].
  assert (Hb : 0 <= wait_bound attempt)
    by (destruct attempt as [|[|?]]; simpl; lia).
  destruct (outcome env attempt) as [e|].
  2:{ intros [= <-]. unfold attempts. simpl. repeat split; lia. }
  destruct (on_catch attempt e (random env attempt)) as [|d| |msg] eqn:E;
    try (intros [= <-]; unfold attempts; simpl; repeat split; lia).
  apply on_catch_retry_inv in E as (_ & _ & Hlt & ->).
  destruct (retry_delay_ok attempt _ (Hrnd attempt) Hlt) as [Hd _].
  pose proof (jitter_range _ (Hrnd attempt)) as Hj.
  unfold maxAttempts in Hlt.
  destruct (still_current env attempt).
  - destruct (fetchHotspotsWithRetry fuel env (S attempt)) as [rest|] eqn:Hrest;
      [|discriminate].
    intros [= <-]. destruct (IH _ _ Hrest) as (Hw & Hlen & Hat).
    cbn [delays total_wait List.length]. rewrite Hd. cbn [total_wait].
    unfold attempts in *. cbn [filter is_attempt List.length].
    assert (attempt = 0 \/ attempt = 1)%nat as [->| ->] by lia;
      cbn [wait_bound Nat.eqb] in *; repeat split; lia.
  - intros [= <-]. cbn [delays total_wait List.length]. rewrite Hd.
    cbn [total_wait]. unfold attempts. cbn [filter is_attempt List.length].
    assert (attempt = 0 \/ attempt = 1)%nat as [->| ->] by lia;
      cbn [wait_bound Nat.eqb]; repeat split; lia.
Qed.

End RetryWait.

(** X6: whatever the responses, a run of the retry loop waits at most
    twice and for less than two seconds in total (at most 1998 ms), and
    each attempt after the first follows a wait. *)
Theorem retry_waits_less_than_two_seconds (env : Retry.Env) (t : list Retry.LoopEvent) :
  (forall a, Retry.random_ok (Retry.random env a)) ->
  Retry.fetchHotspotsWithRetry Retry.maxAttempts env 0 = Some t ->
  0 <= total_wait (Retry.delays t) <= 1998 /\
  (List.length (Retry.delays t) <= 2)%nat /\
  (Retry.attempts t <= S (List.length (Retry.delays t)))%nat.
Proof.
  intros Hrnd Ht. exact (loop_wait env Hrnd _ _ _ Ht).
Qed.

Lemma retry_waits_less_than_two_seconds_witness :
  0 <= total_wait [Some 620; Some 1220] <= 1998.
Proof.
  assert (Hm : Retry.random_ok 0) by (split; [discriminate | reflexivity]).
  apply (retry_waits_less_than_two_seconds always429
           [ Retry.Attempt 0; Retry.Caught (Retry.RetryAfter (Some 620));
             Retry.Attempt 1; Retry.Caught (Retry.RetryAfter (Some 1220));
             Retry.Attempt 2; Retry.Caught Retry.RateLimitFailed ]).
  - intros a. exact Hm.
  - reflexivity.
Defined.

(** * Further properties of the zone selection *)

Lemma removeZone_In (selectedIds : list Z) (id x : Z) :
  In x (removeZone selectedIds id) <-> In x selectedIds /\ x <> id.
Proof.
  unfold removeZone. rewrite filter_In, negb_true_iff, Z.eqb_neq. tauto.
Qed.

Lemma removeZone_notin (selectedIds : list Z) (id : Z) :
  ~ In id selectedIds -> removeZone selectedIds id = selectedIds.
Proof.
  unfold removeZone. induction selectedIds as [|x l IH]; simpl; [reflexivity|].
  intros H. destruct (Z.eqb_spec x id) as [->|Hne]; simpl.
  - tauto.
  - f_equal. apply IH. tauto.
Qed.

Lemma removeZone_length_lt (selectedIds : list Z) (id : Z) :
  In id selectedIds ->
  (List.length (removeZone selectedIds id) < List.length selectedIds)%nat.
Proof.
  unfold removeZone. induction selectedIds as [|x l IH]; simpl; [tauto|].
  intros [->|Hin].
  - rewrite Z.eqb_refl. simpl.
    pose proof (filter_length_le (fun x => negb (x =? id)) l). lia.
  - specialize (IH Hin). destruct (x =? id); simpl; lia.
Qed.

(** X7: [removeZone] undoes [addZone]: when [addZone] passes a new
    selection to [onSelectionChange], removing the same id from it gives
    the selection back. *)
Theorem removeZone_undoes_addZone (selectedIds ids : list Z) (id : Z) :
  addZone selectedIds id = Some ids -> removeZone ids id = selectedIds.
Proof.
  unfold addZone.
  destruct (includes_id selectedIds id) eqn:Hinc; cbn [orb]; [discriminate|].
  destruct (MAX_ZONES <=? List.length selectedIds)%nat; [discriminate|].
  intros [= <-].
  assert (Hnotin : ~ In id selectedIds) by (rewrite <- includes_id_In; congruence).
  unfold removeZone. rewrite filter_app. simpl. rewrite Z.eqb_refl. simpl.
  rewrite app_nil_r. now apply removeZone_notin.
Qed.

Lemma removeZone_undoes_addZone_witness : removeZone [3; 1; 7] 7 = two_zones.
Proof. apply (removeZone_undoes_addZone two_zones [3; 1; 7] 7). reflexivity. Defined.

(** X8: [removeZone] keeps a selection free of duplicates and within
    [MAX_ZONES], leaves the other ids in their order, and after it has
    removed a selected id there is room again: [addZone] of any id that is
    not selected then succeeds. *)
Theorem removeZone_frees_a_slot (selectedIds : list Z) (id : Z) :
  NoDup selectedIds -> (List.length selectedIds <= MAX_ZONES)%nat ->
  In id selectedIds ->
  NoDup (removeZone selectedIds id) /\
  ~ In id (removeZone selectedIds id) /\
  (forall x, x <> id -> (In x (removeZone selectedIds id) <-> In x selectedIds)) /\
  (forall other, ~ In other (removeZone selectedIds id) ->
     addZone (removeZone selectedIds id) other
     = Some (removeZone selectedIds id ++ [other])).
Proof.
  intros Hnd Hlen Hin. split; [|split; [|split]].
  - unfold removeZone. now apply NoDup_filter.
  - rewrite removeZone_In. tauto.
  - intros x Hx. rewrite removeZone_In. tauto.
  - intros other Hother. unfold addZone.
    destruct (includes_id (removeZone selectedIds id) other) eqn:Hinc.
    + apply includes_id_In in Hinc. contradiction.
    + pose proof (removeZone_length_lt selectedIds id Hin).
      destruct (Nat.leb_spec MAX_ZONES (List.length (removeZone selectedIds id)));
        [lia | reflexivity].
Qed.

Lemma removeZone_frees_a_slot_witness :
  addZone (removeZone five_zones 2) 9 = Some (removeZone five_zones 2 ++ [9]).
Proof.
  apply (removeZone_frees_a_slot five_zones 2).
  - repeat constructor; simpl; intuition discriminate.
  - unfold MAX_ZONES. simpl. lia.
  - simpl. tauto.
  - simpl. intuition discriminate.
Defined.

(** X9: every zone offered by [availableToAdd] is in the list of zones
    and not selected, and [addZone] accepts it whenever fewer than
    [MAX_ZONES] zones are selected; a selected zone is never offered. *)
Theorem availableToAdd_can_be_added (zonesList : list ZoneSummary)
    (selectedIds : list Z) (z : ZoneSummary) :
  In z (availableToAdd zonesList selectedIds) <->
  In z zonesList /\ ~ In (id z) selectedIds /\
  ((List.length selectedIds < MAX_ZONES)%nat ->
   addZone selectedIds (id z) = Some (selectedIds ++ [id z])).
Proof.
  unfold availableToAdd. rewrite filter_In, negb_true_iff. split.
  - intros [Hin Hinc]. split; [assumption|]. split.
    + rewrite <- includes_id_In. congruence.
    + intros Hlen. unfold addZone. rewrite Hinc. cbn [orb].
      destruct (Nat.leb_spec MAX_ZONES (List.length selectedIds)); [lia|reflexivity].
  - intros (Hin & Hnotin & _). split; [assumption|].
    destruct (includes_id selectedIds (id z)) eqn:Hinc; [|reflexivity].
    apply includes_id_In in Hinc. contradiction.
Qed.

Lemma availableToAdd_can_be_added_witness :
  addZone two_zones 7 = Some (two_zones ++ [7]).
Proof.
  assert (Hin : In (mkZoneSummary 7 "Harbor" "custom" None None)
                  (availableToAdd sample_zones two_zones))
    by (simpl; left; reflexivity).
  destruct (proj1 (availableToAdd_can_be_added sample_zones two_zones
                     (mkZoneSummary 7 "Harbor" "custom" None None)) Hin)
    as (_ & _ & Hadd).
  apply Hadd. unfold MAX_ZONES. simpl. lia.
Defined.

(** * Further properties of the insights *)

Lemma str_lt_total (a b : string) :
  str_lt a b = false -> str_lt b a = false -> a = b.
Proof.
  intros Hab Hba.
  destruct (String_as_OT.compare_spec a b) as [Heq|Hlt|Hgt].
  - exact Heq.
  - apply str_lt_iff in Hlt. congruence.
  - apply str_lt_iff in Hgt. congruence.
Qed.

(** X10: the busiest hour and day do not depend on the order in which
    the buckets arrive: on two lists with the same buckets, [busiestHour]
    returns buckets with the same count and hour, and [busiestDay] buckets
    with the same count and day. *)
Theorem busiest_order_independent :
  (forall l1 l2 b1 b2,
     Permutation l1 l2 ->
     busiestHour l1 = Some b1 -> busiestHour l2 = Some b2 ->
     HourBucket.count b1 = HourBucket.count b2 /\
     HourBucket.hour b1 = HourBucket.hour b2) /\
  (forall l1 l2 b1 b2,
     Permutation l1 l2 ->
     busiestDay l1 = Some b1 -> busiestDay l2 = Some b2 ->
     DayBucket.count b1 = DayBucket.count b2 /\
     DayBucket.day b1 = DayBucket.day b2).
Proof.
  split; intros l1 l2 b1 b2 Hperm H1 H2.
  - rewrite busiestHour_reduce in H1, H2.
    destruct better_hour_facts as (F1 & F2 & F3 & F4 & F5).
    pose proof (reduce_best _ _ beats_hour F1 F2 F3 F4 F5) as Hbest.
    destruct (Hbest l1) as [Hn1 He1]. destruct (Hbest l2) as [Hn2 He2].
    destruct He1 as (c1 & E1 & Hin1 & Hall1);
      [intros ->; now rewrite (proj2 Hn1 eq_refl) in H1|].
    destruct He2 as (c2 & E2 & Hin2 & Hall2);
      [intros ->; now rewrite (proj2 Hn2 eq_refl) in H2|].
    rewrite E1 in H1. rewrite E2 in H2. injection H1 as ->. injection H2 as ->.
    pose proof (Hall1 b2 (Permutation_in _ (Permutation_sym Hperm) Hin2)) as A.
    pose proof (Hall2 b1 (Permutation_in _ Hperm Hin1)) as B.
    unfold beats_hour in A, B. lia.
  - rewrite busiestDay_reduce in H1, H2.
    destruct better_day_facts as (F1 & F2 & F3 & F4 & F5).
    pose proof (reduce_best _ _ beats_day F1 F2 F3 F4 F5) as Hbest.
    destruct (Hbest l1) as [Hn1 He1]. destruct (Hbest l2) as [Hn2 He2].
    destruct He1 as (c1 & E1 & Hin1 & Hall1);
      [intros ->; now rewrite (proj2 Hn1 eq_refl) in H1|].
    destruct He2 as (c2 & E2 & Hin2 & Hall2);
      [intros ->; now rewrite (proj2 Hn2 eq_refl) in H2|].
    rewrite E1 in H1. rewrite E2 in H2. injection H1 as ->. injection H2 as ->.
    pose proof (Hall1 b2 (Permutation_in _ (Permutation_sym Hperm) Hin2)) as A.
    pose proof (Hall2 b1 (Permutation_in _ Hperm Hin1)) as B.
    unfold beats_day in A, B.
    destruct A as [A|[A1 A2]], B as [B|[B1 B2]]; try lia.
    split; [lia|]. now apply str_lt_total.
Qed.

Lemma busiest_order_independent_witness :
  HourBucket.count (HourBucket.mk 9 40) = HourBucket.count (HourBucket.mk 9 40) /\
  HourBucket.hour (HourBucket.mk 9 40) = HourBucket.hour (HourBucket.mk 9 40).
Proof.
  apply (proj1 busiest_order_independent sample_hours (rev sample_hours)).
  - apply Permutation_rev.
  - reflexivity.
  - reflexivity.
Defined.

(** * Further properties: the zones in the address *)

Section ParseFacts.

Lemma is_digit_facts (c : ascii) :
  is_digit c = true -> is_space c = false /\ Ascii.eqb c "," = false /\
                       Ascii.eqb c "-" = false /\ Ascii.eqb c "+" = false.
Proof.
  destruct c as [[] [] [] [] [] [] [] []]; vm_compute; intros H;
    try discriminate H; repeat split.
Qed.

Lemma uint_all_digits (d : Decimal.uint) :
  all_digits (NilEmpty.string_of_uint d) = true.
Proof. induction d; simpl; auto. Qed.

Lemma all_digits_no_comma (s : string) :
  all_digits s = true -> no_char "," s = true.
Proof.
  unfold all_digits, no_char. induction s as [|c s IH]; simpl; [reflexivity|].
  intros H. apply andb_prop in H as [Hc Hs].
  destruct (is_digit_facts c Hc) as (_ & -> & _). simpl. auto.
Qed.

Lemma trim_end_digits (s : string) : all_digits s = true -> trim_end s = s.
Proof.
  unfold all_digits. induction s as [|c s IH]; simpl; [reflexivity|].
  intros H. apply andb_prop in H as [Hc Hs]. rewrite (IH Hs).
  destruct (is_digit_facts c Hc) as (-> & _). now destruct s.
Qed.

Lemma trim_start_digits (s : string) : all_digits s = true -> trim_start s = s.
Proof.
  unfold all_digits. destruct s as [|c s]; simpl; [reflexivity|].
  intros H. apply andb_prop in H as [Hc Hs].
  now destruct (is_digit_facts c Hc) as (-> & _).
Qed.

Lemma trim_digits (s : string) : all_digits s = true -> trim s = s.
Proof.
  intros H. unfold trim. rewrite trim_start_digits by assumption.
  now apply trim_end_digits.
Qed.

Lemma take_digits_all (s : string) : all_digits s = true -> take_digits s = s.
Proof.
  unfold all_digits. induction s as [|c s IH]; simpl; [reflexivity|].
  intros H. apply andb_prop in H as [-> Hs]. now rewrite IH.
Qed.

Lemma String_pos (p : positive) :
  JS.String_ (Z.pos p) = NilEmpty.string_of_uint (Pos.to_uint p).
Proof.
  unfold JS.String_. simpl.
  pose proof (Unsigned.to_uint_nonnil p) as H.
  now destruct (Pos.to_uint p).
Qed.

Lemma String_pos_nonempty (p : positive) : JS.String_ (Z.pos p) <> EmptyString.
Proof.
  rewrite String_pos. pose proof (Unsigned.to_uint_nonnil p) as H.
  destruct (Pos.to_uint p); simpl; congruence.
Qed.

(** [parseInt] reads back what [String] prints, for a positive integer. *)
Lemma parseInt10_String (n : Z) :
  0 < n -> parseInt10 (trim (JS.String_ n)) = Some n.
Proof.
  destruct n as [|p|p]; try lia. intros _.
  pose proof (String_pos_nonempty p) as Hne.
  rewrite String_pos in *.
  pose proof (uint_all_digits (Pos.to_uint p)) as Hd.
  rewrite trim_digits by assumption.
  unfold parseInt10. rewrite trim_start_digits by assumption.
  destruct (NilEmpty.string_of_uint (Pos.to_uint p)) as [|c r] eqn:E; [congruence|].
  assert (Hc : is_digit c = true).
  { unfold all_digits in Hd. simpl in Hd. now apply andb_prop in Hd. }
  destruct (is_digit_facts c Hc) as (_ & _ & -> & ->). cbn [snd fst].
  rewrite take_digits_all by assumption. rewrite <- E.
  rewrite NilEmpty.usu.
  pose proof (DecimalZ.of_to (Z.pos p)) as Hz. simpl in Hz.
  unfold Z.of_int in Hz. rewrite Hz. now destruct p.
Qed.

Lemma split_no_sep (sep : ascii) (a : string) :
  no_char sep a = true -> split sep a = [a].
Proof.
  unfold no_char. induction a as [|c a IH]; simpl; [reflexivity|].
  intros H. apply andb_prop in H as [Hc Ha].
  apply negb_true_iff in Hc. rewrite Hc, (IH Ha). reflexivity.
Qed.

Lemma split_app (sep : ascii) (a s : string) :
  no_char sep a = true ->
  split sep (a ++ String sep s)%string = a :: split sep s.
Proof.
  unfold no_char. induction a as [|c a IH]; simpl.
  - intros _. now rewrite Ascii.eqb_refl.
  - intros H. apply andb_prop in H as [Hc Ha].
    apply negb_true_iff in Hc. rewrite Hc, (IH Ha). reflexivity.
Qed.

(** [split] undoes [join] on a non-empty list of strings without the
    separator. *)
Lemma split_join (l : list string) :
  l <> [] -> forallb (no_char ",") l = true ->
  split "," (JS.join "," l) = l.
Proof.
  induction l as [|x [|y l] IH]; intros Hne Hall; [congruence| |].
  - simpl in Hall. apply andb_prop in Hall as [Hx _].
    simpl. now apply split_no_sep.
  - change (JS.join "," (x :: y :: l))
      with (x ++ String "," (JS.join "," (y :: l)))%string.
    cbn [forallb] in Hall. apply andb_prop in Hall as [Hx Hall].
    rewrite split_app by assumption. f_equal. apply IH; [discriminate | assumption].
Qed.

Lemma parse_all_String (ids : list Z) :
  Forall (fun n => 0 < n) ids ->
  numbers
    (filter (fun n => match n with Some v => 0 <? v | None => false end)
       (map (fun s => parseInt10 (trim s)) (map JS.String_ ids))) = ids.
Proof.
  induction 1 as [|n ids Hn _ IH]; simpl; [reflexivity|].
  rewrite (parseInt10_String n Hn).
  destruct (Z.ltb_spec 0 n); [|lia]. simpl. now rewrite IH.
Qed.

Lemma String_no_comma (n : Z) : 0 < n -> no_char "," (JS.String_ n) = true.
Proof.
  destruct n as [|p|p]; try lia. intros _. rewrite String_pos.
  apply all_digits_no_comma, uint_all_digits.
Qed.

Lemma trim_nonempty (c : ascii) (s : string) :
  is_space c = false -> trim (String c s) <> EmptyString.
Proof.
  intros Hc. unfold trim. simpl. rewrite Hc. simpl. rewrite Hc.
  destruct (trim_end s); discriminate.
Qed.

End ParseFacts.

(** X11: the selection survives the round trip through the address:
    for ids that are positive integers up to [MAX_SAFE_INTEGER],
    [parseZonesFromSearchParams] reads back from the [zones] parameter
    exactly the list that [handleZoneSelectionChange] wrote, the empty
    selection included (the parameter is then deleted). *)
Theorem zones_round_trip (ids : list Z) :
  Forall (fun n => 0 < n <= MAX_SAFE_INTEGER) ids ->
  parseZonesFromSearchParams (zones_param ids) = ids.
Proof.
  intros Hall.
  assert (Hpos : Forall (fun n => 0 < n) ids).
  { eapply Forall_impl; [|exact Hall]. simpl. intros n Hn. lia. }
  destruct ids as [|n ids]; [reflexivity|].
  unfold zones_param. cbn [List.length Nat.ltb Nat.leb].
  unfold parseZonesFromSearchParams.
  assert (Hn : 0 < n) by now inversion Hpos.
  assert (Hjoin : exists c r, is_space c = false /\
            JS.join "," (map JS.String_ (n :: ids)) = String c r).
  { destruct n as [|p|p]; try lia.
    pose proof (String_pos_nonempty p) as Hne.
    pose proof (uint_all_digits (Pos.to_uint p)) as Hd.
    rewrite <- String_pos in Hd.
    destruct (JS.String_ (Z.pos p)) as [|c r] eqn:E; [congruence|].
    exists c. unfold all_digits in Hd. simpl in Hd.
    apply andb_prop in Hd as [Hc _]. apply is_digit_facts in Hc as (Hc & _).
    exists (match ids with
            | [] => r
            | _ :: _ => (r ++ "," ++ JS.join "," (map JS.String_ ids))%string
            end).
    split; [assumption|].
    destruct ids as [|m ids]; cbn [map JS.join String.concat]; rewrite E; reflexivity. }
  destruct Hjoin as (c & r & Hc & Hj).
  assert (E1 : String.eqb (JS.join "," (map JS.String_ (n :: ids))) "" = false)
    by (rewrite Hj; reflexivity).
  assert (E2 : String.eqb (trim (JS.join "," (map JS.String_ (n :: ids)))) "" = false).
  { rewrite Hj. apply String.eqb_neq. now apply trim_nonempty. }
  rewrite E1, E2. cbn [orb].
  rewrite split_join.
  - now apply parse_all_String.
  - discriminate.
  - rewrite forallb_forall. intros s Hs. apply in_map_iff in Hs as (m & <- & Hm).
    apply String_no_comma. rewrite Forall_forall in Hpos. auto.
Qed.

Example parseZones_sample :
  parseZonesFromSearchParams (Some " 4, 12 ,x,-3,0,7a"%string) = [4; 12; 7].
Proof. reflexivity. Qed.

Lemma zones_round_trip_witness :
  parseZonesFromSearchParams (zones_param five_zones) = five_zones.
Proof.
  apply (zones_round_trip five_zones).
  repeat constructor; discriminate.
Defined.

(** * Further properties: the top hotspots *)

Section SortFacts.

Variable A : Type.
Variable cmp : A -> A -> comparison.
Variable before : A -> A -> Prop.
Hypothesis cmp_before : forall x y, cmp x y <> Gt -> before x y.
Hypothesis cmp_after : forall x y, cmp x y = Gt -> before y x.
Hypothesis before_trans : forall x y z, before x y -> before y z -> before x z.

Lemma insert_by_perm (x : A) (l : list A) :
  Permutation (insert_by cmp x l) (x :: l).
Proof.
  induction l as [|y l IH]; simpl; [reflexivity|].
  destruct (cmp x y); try reflexivity.
  rewrite IH. apply perm_swap.
Qed.

Lemma sort_by_perm (l : list A) : Permutation (sort_by cmp l) l.
Proof.
  induction l as [|x l IH]; simpl; [reflexivity|].
  rewrite insert_by_perm. now constructor.
Qed.

Lemma insert_by_sorted (x : A) (l : list A) :
  StronglySorted before l -> StronglySorted before (insert_by cmp x l).
Proof.
  induction 1 as [|y l Hs IH Hy]; simpl.
  - repeat constructor.
  - destruct (cmp x y) eqn:E.
    + assert (Hxy : before x y) by (apply cmp_before; congruence).
      constructor; [now constructor|]. constructor; [assumption|].
      eapply Forall_impl; [|exact Hy]. intros z Hz. eauto.
    + assert (Hxy : before x y) by (apply cmp_before; congruence).
      constructor; [now constructor|]. constructor; [assumption|].
      eapply Forall_impl; [|exact Hy]. intros z Hz. eauto.
    + constructor; [assumption|].
      apply (Permutation_Forall (Permutation_sym (insert_by_perm x l))).
      constructor; [now apply cmp_after | assumption].
Qed.

Lemma sort_by_sorted (l : list A) : StronglySorted before (sort_by cmp l).
Proof.
  induction l as [|x l IH]; simpl; [constructor | now apply insert_by_sorted].
Qed.

Lemma StronglySorted_app (l1 l2 : list A) :
  StronglySorted before (l1 ++ l2) ->
  StronglySorted before l1 /\
  forall x y, In x l1 -> In y l2 -> before x y.
Proof.
  induction l1 as [|a l1 IH]; simpl; intros H.
  - split; [constructor | intros x y []].
  - inversion H as [|? ? Hs Ha]; subst. destruct (IH Hs) as [Hs1 Hcross].
    rewrite Forall_app in Ha. destruct Ha as [Ha1 Ha2]. split.
    + now constructor.
    + intros x y [<-|Hx] Hy; [|auto]. rewrite Forall_forall in Ha2. auto.
Qed.

End SortFacts.

Lemma by_score_then_ratio_before (a b : HotspotCell) :
  by_score_then_ratio a b <> Gt -> ranks_before a b.
Proof.
  unfold by_score_then_ratio, ranks_before.
  destruct (Qeq_bool (score b) (score a)) eqn:E; simpl.
  - apply Qeq_bool_iff in E. rewrite <- Qle_alt. auto.
  - apply Qeq_bool_neq in E. rewrite <- Qle_alt. intros H. left.
    apply Qle_lteq in H. tauto.
Qed.

Lemma by_score_then_ratio_after (a b : HotspotCell) :
  by_score_then_ratio a b = Gt -> ranks_before b a.
Proof.
  unfold by_score_then_ratio, ranks_before.
  destruct (Qeq_bool (score b) (score a)) eqn:E; simpl.
  - apply Qeq_bool_iff in E. rewrite <- Qgt_alt. intros H. right.
    split; [now symmetry | now apply Qlt_le_weak].
  - rewrite <- Qgt_alt. auto.
Qed.

Lemma ranks_before_trans (a b c : HotspotCell) :
  ranks_before a b -> ranks_before b c -> ranks_before a c.
Proof. unfold ranks_before. intros [H1|[H1 H1']] [H2|[H2 H2']]; lra. Qed.

(** X12: [top5Hotspots] returns five cells, or all of them when there
    are fewer, in descending order of score and, at equal score, of ratio;
    the cells it returns together with the ones it leaves out are the
    cells it was given, and no cell left out ranks above a returned one. *)
Theorem top5Hotspots_spec (cells : list HotspotCell) :
  List.length (top5Hotspots cells) = Nat.min 5 (List.length cells) /\
  StronglySorted ranks_before (top5Hotspots cells) /\
  exists rest,
    Permutation cells (top5Hotspots cells ++ rest) /\
    forall x y, In x (top5Hotspots cells) -> In y rest -> ranks_before x y.
Proof.
  unfold top5Hotspots.
  pose proof (sort_by_perm _ by_score_then_ratio cells) as Hperm.
  pose proof (sort_by_sorted _ by_score_then_ratio ranks_before
                by_score_then_ratio_before by_score_then_ratio_after
                ranks_before_trans cells) as Hsorted.
  rewrite <- (firstn_skipn 5 (sort_by by_score_then_ratio cells)) in Hsorted.
  apply StronglySorted_app in Hsorted.
  destruct Hsorted as [Hs Hcross].
  split; [|split; [exact Hs|]].
  - rewrite length_firstn. now rewrite (Permutation_length Hperm).
  - exists (skipn 5 (sort_by by_score_then_ratio cells)).
    split; [|exact Hcross].
    rewrite firstn_skipn. now symmetry.
Qed.

Example top5Hotspots_sample :
  map centroid (top5Hotspots sample_cells) = [(1, 0); (0, 0); (2, 0)]%Q.
Proof. reflexivity. Qed.

Lemma top5Hotspots_spec_witness :
  List.length (top5Hotspots sample_cells) = 3%nat.
Proof. exact (proj1 (top5Hotspots_spec sample_cells)). Defined.

(** * Further properties: the query string *)

Example searchParams_sample :
  searchParams (mkParams "-74.1,40.6,-73.9,40.8" (Some 500) None None None
                  (Some "2024-01-01T00:00:00Z"%string) None None (Some 5) None)
  = ("bbox=-74.1%2C40.6%2C-73.9%2C40.8&cell_m=500&recent_days=7" ++
     "&baseline_days=30&limit=3000&start=2024-01-01T00%3A00%3A00Z&hour_end=5")%string.
Proof. reflexivity. Qed.

Section QueryFacts.

Lemma no_char_app (sep : ascii) (a b : string) :
  no_char sep (a ++ b) = no_char sep a && no_char sep b.
Proof.
  unfold no_char. induction a as [|c a IH]; simpl; [reflexivity|].
  rewrite IH. now rewrite andb_assoc.
Qed.

Lemma split_join_by (sep : ascii) (l : list string) :
  l <> [] -> forallb (no_char sep) l = true ->
  split sep (JS.join (String sep EmptyString) l) = l.
Proof.
  induction l as [|x [|y l] IH]; intros Hne Hall; [congruence| |].
  - simpl in Hall. apply andb_prop in Hall as [Hx _].
    simpl. now apply split_no_sep.
  - change (JS.join (String sep EmptyString) (x :: y :: l))
      with (x ++ String sep (JS.join (String sep EmptyString) (y :: l)))%string.
    cbn [forallb] in Hall. apply andb_prop in Hall as [Hx Hall].
    rewrite split_app by assumption. f_equal. apply IH; [discriminate | assumption].
Qed.

Lemma encode_unit_free (c : ascii) :
  no_char "&" (URL.encode_unit c) = true /\ no_char "=" (URL.encode_unit c) = true.
Proof. destruct c as [[] [] [] [] [] [] [] []]; vm_compute; split; reflexivity. Qed.

Lemma urlencode_free (s : string) :
  no_char "&" (URL.urlencode s) = true /\ no_char "=" (URL.urlencode s) = true.
Proof.
  induction s as [|c s [IH1 IH2]]; simpl; [now split|].
  rewrite !no_char_app, IH1, IH2.
  destruct (encode_unit_free c) as [-> ->]. now split.
Qed.

Lemma urldecode_unit (c : ascii) (r : string) :
  URL.urldecode (URL.encode_unit c ++ r) = option_map (String c) (URL.urldecode r).
Proof. destruct c as [[] [] [] [] [] [] [] []]; reflexivity. Qed.

Lemma urldecode_urlencode (s : string) :
  URL.urldecode (URL.urlencode s) = Some s.
Proof.
  induction s as [|c s IH]; [reflexivity|].
  cbn [URL.urlencode]. rewrite urldecode_unit, IH. reflexivity.
Qed.

Lemma urlencode_inj (s t : string) :
  URL.urlencode s = URL.urlencode t -> s = t.
Proof.
  intros H. apply (f_equal URL.urldecode) in H.
  rewrite !urldecode_urlencode in H. now injection H.
Qed.

Lemma pair_string_split (nv : string * string) :
  split "=" (URL.pair_string nv)
  = [URL.urlencode (fst nv); URL.urlencode (snd nv)].
Proof.
  unfold URL.pair_string.
  change ("=" ++ URL.urlencode (snd nv))%string
    with (String "=" (URL.urlencode (snd nv))).
  rewrite split_app by apply urlencode_free.
  now rewrite split_no_sep by apply urlencode_free.
Qed.

Lemma pair_string_inj (a b : string * string) :
  URL.pair_string a = URL.pair_string b -> a = b.
Proof.
  intros H. apply (f_equal (split "=")) in H. rewrite !pair_string_split in H.
  injection H as H1 H2. apply urlencode_inj in H1, H2.
  destruct a, b; simpl in *; congruence.
Qed.

Lemma pair_string_free (nv : string * string) :
  no_char "&" (URL.pair_string nv) = true.
Proof.
  unfold URL.pair_string. rewrite !no_char_app.
  rewrite (proj1 (urlencode_free (fst nv))), (proj1 (urlencode_free (snd nv))).
  reflexivity.
Qed.

Lemma map_pair_string_inj (p q : URL.URLSearchParams) :
  map URL.pair_string p = map URL.pair_string q -> p = q.
Proof.
  revert q; induction p as [|a p IH]; intros [|b q] H; try discriminate H.
  - reflexivity.
  - simpl in H. injection H as Hab H. f_equal; [now apply pair_string_inj | auto].
Qed.

(** Serialization loses nothing: the string determines the pairs. *)
Lemma toString_inj (p q : URL.URLSearchParams) :
  p <> [] -> q <> [] -> URL.toString p = URL.toString q -> p = q.
Proof.
  intros Hp Hq H. unfold URL.toString in H.
  apply (f_equal (split "&")) in H.
  rewrite !split_join_by in H.
  - now apply map_pair_string_inj.
  - destruct q; [congruence | discriminate].
  - rewrite forallb_forall. intros s Hs. apply in_map_iff in Hs as (nv & <- & _).
    apply pair_string_free.
  - destruct p; [congruence | discriminate].
  - rewrite forallb_forall. intros s Hs. apply in_map_iff in Hs as (nv & <- & _).
    apply pair_string_free.
Qed.

Lemma searchParams_fields (params : FetchHotspotsParams) :
  searchParams params = URL.toString (search_fields params).
Proof.
  destruct params as [b c r bl l s e hs he v].
  destruct s, e, hs, he, v; reflexivity.
Qed.

Lemma search_fields_get (params : FetchHotspotsParams) :
  URL.get "bbox" (search_fields params) = Some (bbox params) /\
  URL.get "cell_m" (search_fields params)
  = Some (JS.String_ (JS.nullish (cell_m params) 250)) /\
  URL.get "recent_days" (search_fields params)
  = Some (JS.String_ (JS.nullish (recent_days params) 7)) /\
  URL.get "baseline_days" (search_fields params)
  = Some (JS.String_ (JS.nullish (baseline_days params) 30)) /\
  URL.get "limit" (search_fields params)
  = Some (JS.String_ (JS.nullish (limit params) 3000)) /\
  URL.get "start" (search_fields params) = start params /\
  URL.get "end" (search_fields params) = end_ params /\
  URL.get "hour_start" (search_fields params)
  = option_map JS.String_ (hour_start params) /\
  URL.get "hour_end" (search_fields params)
  = option_map JS.String_ (hour_end params) /\
  URL.get "violation_type" (search_fields params) = violation_type params.
Proof.
  destruct params as [b c r bl l s e hs he v].
  destruct s, e, hs, he, v; repeat split; reflexivity.
Qed.

Lemma option_String_inj (x y : option Z) :
  option_map JS.String_ x = option_map JS.String_ y -> x = y.
Proof.
  destruct x, y; simpl; intros H; try discriminate H; [|reflexivity].
  injection H as H. apply String_inj in H. now subst.
Qed.

Lemma search_fields_identical (p q : FetchHotspotsParams) :
  search_fields p = search_fields q -> semantically_identical p q.
Proof.
  intros H.
  destruct (search_fields_get p) as (P1 & P2 & P3 & P4 & P5 & P6 & P7 & P8 & P9 & P10).
  destruct (search_fields_get q) as (Q1 & Q2 & Q3 & Q4 & Q5 & Q6 & Q7 & Q8 & Q9 & Q10).
  rewrite H in P1, P2, P3, P4, P5, P6, P7, P8, P9, P10.
  unfold semantically_identical.
  repeat split.
  - congruence.
  - apply String_inj. congruence.
  - apply String_inj. congruence.
  - apply String_inj. congruence.
  - apply String_inj. congruence.
  - congruence.
  - congruence.
  - apply option_String_inj. congruence.
  - apply option_String_inj. congruence.
  - congruence.
Qed.

Lemma identical_search_fields (p q : FetchHotspotsParams) :
  semantically_identical p q -> search_fields p = search_fields q.
Proof.
  destruct p as [b c r bl l s e hs he v], q as [b' c' r' bl' l' s' e' hs' he' v'].
  unfold semantically_identical, search_fields; cbn.
  intros (-> & -> & -> & -> & -> & -> & -> & -> & -> & ->). reflexivity.
Qed.

Lemma identical_key (p q : FetchHotspotsParams) :
  semantically_identical p q -> hotspotsCacheKey p = hotspotsCacheKey q.
Proof.
  destruct p as [b c r bl l s e hs he v], q as [b' c' r' bl' l' s' e' hs' he' v'].
  unfold semantically_identical, hotspotsCacheKey; cbn.
  intros (-> & -> & -> & -> & -> & -> & -> & -> & -> & ->). reflexivity.
Qed.

Lemma serialize_unit (c : ascii) (u : URL16.JsString) :
  URL16.serialize (N_of_ascii c :: u)
  = (URL.encode_unit c ++ URL16.serialize u)%string.
Proof. destruct c as [[] [] [] [] [] [] [] []]; reflexivity. Qed.

(** On strings of code units below 256 the encoder of this development is
    the serializer. *)
Lemma serialize_urlencode (s : string) :
  URL16.serialize (URL16.of_string s) = URL.urlencode s.
Proof.
  induction s as [|c s IH]; [reflexivity|].
  change (URL16.of_string (String c s)) with (N_of_ascii c :: URL16.of_string s).
  rewrite serialize_unit, IH. reflexivity.
Qed.

End QueryFacts.

Example serialize_samples :
  URL16.serialize [233; 8364; 55357; 56832]%N
  = "%C3%A9%E2%82%AC%F0%9F%98%80"%string /\
  URL16.serialize [55296]%N = "%EF%BF%BD"%string.
Proof. split; reflexivity. Qed.

(** X13: for parameters whose strings are made of code units below 256,
    the strings of this development, on which [URL.urlencode] is the
    serializer of [URLSearchParams], the query string that [searchParams]
    builds determines the request: two parameter sets give the same query
    string exactly when they are semantically identical (equal after the
    defaults are filled in).  The restriction is needed: the serializer
    writes every unpaired surrogate as [%EF%BF%BD]. *)
Theorem searchParams_injective :
  (forall s, URL16.serialize (URL16.of_string s) = URL.urlencode s) /\
  (forall p q, searchParams p = searchParams q <-> semantically_identical p q) /\
  URL16.serialize [55296%N] = URL16.serialize [55297%N].
Proof.
  split; [exact serialize_urlencode|]. split; [|reflexivity].
  intros p q. rewrite !searchParams_fields. split.
  - intros H. apply search_fields_identical.
    apply toString_inj; [| |exact H]; now destruct p.
  - intros H. now rewrite (identical_search_fields p q H).
Qed.

Lemma searchParams_injective_witness :
  semantically_identical (hotspotsParams bbox_a 250)
    (mkParams bbox_a None None None None None None None None None).
Proof.
  apply (proj1 (proj1 (proj2 searchParams_injective) (hotspotsParams bbox_a 250)
                  (mkParams bbox_a None None None None None None None None None))).
  reflexivity.
Defined.

(** X14: for parameters whose strings are made of code units below 256,
    the strings of this development: the cache key never separates two
    requests that have the same query string; and for requests as the map
    page makes them (grid size and the three fixed numbers, no filter)
    with no ["|"] in the bounding box, two requests have the same cache
    key exactly when they have the same query string. *)
Theorem cache_key_agrees_with_query_string :
  (forall p q, searchParams p = searchParams q ->
               hotspotsCacheKey p = hotspotsCacheKey q) /\
  (forall bbox1 bbox2 gridSize1 gridSize2,
     sep_free bbox1 = true -> sep_free bbox2 = true ->
     (hotspotsCacheKey (hotspotsParams bbox1 gridSize1)
      = hotspotsCacheKey (hotspotsParams bbox2 gridSize2)
      <-> searchParams (hotspotsParams bbox1 gridSize1)
          = searchParams (hotspotsParams bbox2 gridSize2))).
Proof.
  split.
  - intros p q H. apply identical_key.
    rewrite !searchParams_fields in H. apply search_fields_identical.
    apply toString_inj; [| |exact H]; now destruct p.
  - intros b1 b2 g1 g2 H1 H2. split.
    + intros H. rewrite !searchParams_fields.
      f_equal. apply identical_search_fields.
      rewrite !hotspotsCacheKey_fields in H.
      apply key_fields_identical; [repeat split|].
      apply join_inj; [reflexivity | | | exact H];
        apply key_fields_sep_free; unfold strings_sep_free; simpl;
        now rewrite ?H1, ?H2.
    + intros H. apply identical_key.
      rewrite !searchParams_fields in H. apply search_fields_identical.
      apply toString_inj; [discriminate | discriminate | exact H].
Qed.

Lemma cache_key_agrees_with_query_string_witness :
  hotspotsCacheKey (hotspotsParams bbox_a 250)
  = hotspotsCacheKey (mkParams bbox_a None None None None None None None None None).
Proof.
  apply (proj1 cache_key_agrees_with_query_string). reflexivity.
Defined.

(** * Further properties: what a call returns *)

Section CallFacts.

Context {R : Type}.
Variable max_entries : nat.

Lemma fetch_value_inv (st : State R) params now d st' :
  fetchHotspotsGridCached max_entries params now st = (Value d, st') ->
  st' = st /\
  exists ts, map_get (hotspotsCacheKey params) (hotspotsCache st) = Some (Data d ts) /\
             now - ts < HOTSPOTS_CACHE_TTL_MS.
Proof.
  unfold fetchHotspotsGridCached.
  destruct (map_get (hotspotsCacheKey params) (hotspotsCache st))
    as [[data ts|ts q]|]; try discriminate.
  destruct (Z.ltb_spec (now - ts) HOTSPOTS_CACHE_TTL_MS); [|discriminate].
  intros [= <- <-]. split; [reflexivity|]. now exists ts.
Qed.

(** X15: data handed out from the cache is fresh and genuine: when a call
    on a reachable state returns data at once, a fetch delivered that
    data during the run less than [HOTSPOTS_CACHE_TTL_MS] before the call,
    and the call changes nothing. *)
Theorem returned_data_is_fresh (evs : list (@Event R)) params now d st' :
  fetchHotspotsGridCached max_entries params now (run max_entries evs)
  = (Value d, st') ->
  st' = run max_entries evs /\
  exists p ts, In (Fulfil p d ts) evs /\ now - ts < HOTSPOTS_CACHE_TTL_MS.
Proof.
  intros H. apply fetch_value_inv in H as (-> & ts & Hget & Hts).
  split; [reflexivity|].
  destruct (data_after_run_from max_entries init evs _ _ _ Hget) as [H0|[p Hp]].
  - discriminate H0.
  - now exists p, ts.
Qed.

(** X16: a promise handed out by a call on a reachable state belongs to a
    fetch that is still pending for the requested key: a caller is never
    left with the promise of a fetch that has already settled. *)
Theorem returned_promise_is_pending (evs : list (@Event R)) params now p st' :
  fetchHotspotsGridCached max_entries params now (run max_entries evs)
  = (Promise p, st') ->
  promise_key p (pending st') = Some (hotspotsCacheKey params).
Proof.
  destruct (wf_strong_run_from max_entries init evs wf_strong_init)
    as (_ & Hback & _).
  fold (run max_entries evs) in Hback.
  unfold fetchHotspotsGridCached.
  destruct (map_get (hotspotsCacheKey params) (hotspotsCache (run max_entries evs)))
    as [[data ts|ts q]|] eqn:Hget.
  - destruct (now - ts <? HOTSPOTS_CACHE_TTL_MS); [discriminate|].
    intros [= <- <-]. simpl. now rewrite Nat.eqb_refl.
  - intros [= <- <-]. eapply Hback, Hget.
  - intros [= <- <-]. simpl. now rewrite Nat.eqb_refl.
Qed.

End CallFacts.

Lemma returned_data_is_fresh_witness :
  exists p ts, In (Fulfil p "data A"%string ts) stored_scenario /\
               2999 - ts < HOTSPOTS_CACHE_TTL_MS.
Proof.
  apply (returned_data_is_fresh HOTSPOTS_CACHE_MAX_ENTRIES stored_scenario
           (req "A") 2999 "data A"%string
           (run HOTSPOTS_CACHE_MAX_ENTRIES stored_scenario)).
  reflexivity.
Defined.

Lemma returned_promise_is_pending_witness :
  promise_key 0 (pending (run HOTSPOTS_CACHE_MAX_ENTRIES one_call))
  = Some (hotspotsCacheKey (req "A")).
Proof.
  apply (returned_promise_is_pending HOTSPOTS_CACHE_MAX_ENTRIES one_call
           (req "A") 5000 0%nat (run HOTSPOTS_CACHE_MAX_ENTRIES one_call)).
  reflexivity.
Defined.

(** * Further properties: viewports and cache entries *)

Lemma sep_free_app (a b : string) :
  sep_free (a ++ b) = sep_free a && sep_free b.
Proof.
  induction a as [|c a IH]; simpl; [reflexivity|].
  rewrite IH. now rewrite andb_assoc.
Qed.

Lemma bboxString_sep_free (w s e n : string) :
  sep_free w = true -> sep_free s = true -> sep_free e = true ->
  sep_free n = true -> sep_free (bboxString w s e n) = true.
Proof.
  intros Hw Hs He Hn. unfold bboxString.
  rewrite sep_free_app, Hw. simpl.
  rewrite sep_free_app, Hs. simpl.
  rewrite sep_free_app, He. simpl. exact Hn.
Qed.

Lemma bboxString_inj (w s e n w' s' e' n' : string) :
  forallb (no_char ",") [w; s; e; n] = true ->
  forallb (no_char ",") [w'; s'; e'; n'] = true ->
  bboxString w s e n = bboxString w' s' e' n' ->
  w = w' /\ s = s' /\ e = e' /\ n = n'.
Proof.
  intros H1 H2 H.
  change (bboxString w s e n) with (JS.join "," [w; s; e; n]) in H.
  change (bboxString w' s' e' n') with (JS.join "," [w'; s'; e'; n']) in H.
  apply (f_equal (split ",")) in H.
  rewrite !split_join in H by (assumption || discriminate).
  injection H as -> -> -> ->. auto.
Qed.

(** X17: viewports do not share cache entries: for coordinates whose
    renderings contain neither [","] nor ["|"], as every rendering of a
    number does, two requests of the map page have the same cache key
    exactly when the four coordinates and the grid size are the same. *)
Theorem viewport_determines_cache_key
    (w s e n w' s' e' n' : string) (gridSize gridSize' : Z) :
  forallb (no_char ",") [w; s; e; n; w'; s'; e'; n'] = true ->
  forallb sep_free [w; s; e; n; w'; s'; e'; n'] = true ->
  (hotspotsCacheKey (hotspotsParams (bboxString w s e n) gridSize)
   = hotspotsCacheKey (hotspotsParams (bboxString w' s' e' n') gridSize')
   <-> w = w' /\ s = s' /\ e = e' /\ n = n' /\ gridSize = gridSize').
Proof.
  intros Hc Hp. split.
  - intros H. rewrite !hotspotsCacheKey_fields in H.
    cbn [forallb] in Hp.
    repeat (apply andb_prop in Hp as [?Hs Hp]).
    assert (Hid : semantically_identical
                    (hotspotsParams (bboxString w s e n) gridSize)
                    (hotspotsParams (bboxString w' s' e' n') gridSize')).
    { apply key_fields_identical; [repeat split|].
      apply join_inj; [reflexivity | | | exact H];
        apply key_fields_sep_free; unfold strings_sep_free; simpl;
        rewrite bboxString_sep_free by assumption; reflexivity. }
    destruct Hid as (Hb & Hg & _). simpl in Hb, Hg.
    cbn [forallb] in Hc. repeat (apply andb_prop in Hc as [?Hn Hc]).
    apply bboxString_inj in Hb;
      [| cbn [forallb];
         repeat match goal with E : no_char _ _ = true |- _ => rewrite E; clear E end;
         reflexivity ..].
    intuition.
  - intros (-> & -> & -> & -> & ->). reflexivity.
Qed.

Lemma viewport_determines_cache_key_witness :
  "-74.10000001"%string = "-74.10000001"%string /\ "40.6"%string = "40.6"%string /\
  "-73.9"%string = "-73.9"%string /\ "40.8"%string = "40.8"%string /\ 250 = 250.
Proof.
  apply (proj1 (viewport_determines_cache_key
                  "-74.10000001" "40.6" "-73.9" "40.8"
                  "-74.10000001" "40.6" "-73.9" "40.8" 250 250
                  eq_refl eq_refl)).
  reflexivity.
Defined.
